(** * Triangle meshes of the tesselate core: a shallow embedding of mesh.h

    The development follows [src/tesselate/mesh.h]: the [Triangle] and
    [Edge] records, the inline members of [Triangle] and [Mesh], and, for the
    members that mesh.h only declares, models written from the prose
    specification.  Vertex indices are C++ [int]s and are kept as [Z];
    [float] coordinates are kept abstract in the class [FloatOps], with the
    integers, the reals and IEEE-754 binary32 as instances; the algebraic
    facts that need exact arithmetic ask for it explicitly through the class
    [ExactArith], and what rounding does to them is shown in binary32. *)

From Stdlib Require Import ZArith List Bool Lia Ring Ring_theory Reals.
From Stdlib Require Import Relations SpecFloat.
From Stdlib.Strings Require Import Byte.
Import ListNotations.

Local Open Scope Z_scope.

(* ================================================================= *)
(** ** Scalars *)

(** The operations on [float] that the mesh code uses.  [fofZ] is the
    conversion from [int] written implicitly in C++ (as in [mult(-1)]). *)
Class FloatOps : Type := {
  F : Type;
  f0 : F;
  f1 : F;
  fadd : F -> F -> F;
  fsub : F -> F -> F;
  fmul : F -> F -> F;
  fdiv : F -> F -> F;
  fopp : F -> F;
  fsqrt : F -> F;
  fofZ : Z -> F
}.

(** Exact arithmetic: the scalars form a commutative ring, the conversion
    from [int] sends [-1] to the opposite of one, and division commutes with
    the opposite in its numerator. *)
Class ExactArith (FO : FloatOps) : Prop := {
  exact_ring : ring_theory f0 f1 fadd fmul fsub fopp (@eq F);
  exact_minus_one : fofZ (-1) = fopp f1;
  exact_one : fofZ 1 = f1;
  exact_zero : fofZ 0 = f0;
  exact_div_opp : forall a b, fdiv (fopp a) b = fopp (fdiv a b)
}.

(** Integers with truncated division and integer square root: an
    executable instance on which the embedded functions can be run. *)
#[export] Instance ZOps : FloatOps := {|
  F := Z;
  f0 := 0;
  f1 := 1;
  fadd := Z.add;
  fsub := Z.sub;
  fmul := Z.mul;
  fdiv := Z.quot;
  fopp := Z.opp;
  fsqrt := Z.sqrt;
  fofZ := fun z => z
|}.

(** The real numbers, which the [float]s approximate. *)
Definition ROps : FloatOps := {|
  F := R;
  f0 := 0%R;
  f1 := 1%R;
  fadd := Rplus;
  fsub := Rminus;
  fmul := Rmult;
  fdiv := Rdiv;
  fopp := Ropp;
  fsqrt := sqrt;
  fofZ := IZR
|}.

(** IEEE-754 binary32 with rounding to nearest, ties to even: the [float]
    of the platforms the program is built for.  [fofZ] rounds the integer
    to the nearest [float]. *)
Definition Float32Ops : FloatOps := {|
  F := spec_float;
  f0 := S754_zero false;
  f1 := binary_normalize 24 128 1 0 false;
  fadd := SFadd 24 128;
  fsub := SFsub 24 128;
  fmul := SFmul 24 128;
  fdiv := SFdiv 24 128;
  fopp := SFopp;
  fsqrt := SFsqrt 24 128;
  fofZ := fun z => binary_normalize 24 128 z 0 false
|}.

(* ================================================================= *)
(** ** Points and vectors (cgp::Point, cgp::Vector) *)

Section Geometry.
Context {FO : FloatOps}.

Record Point : Type := mkPoint { px : F; py : F; pz : F }.

Record Vector : Type := mkVector { vi : F; vj : F; vk : F }.

(** Modelled from the spec: cgp::Vector's default constructor (vecpnt.h is
    not in src/); the zero vector. *)
Definition Vector0 : Vector := mkVector f0 f0 f0.

(** Modelled from the spec: cgp::Vector::diff(p, q) (vecpnt.h is not in
    src/); the difference [p - q] of two positions, componentwise. *)
Definition diff (p q : Point) : Vector :=
  mkVector (fsub (px p) (px q)) (fsub (py p) (py q)) (fsub (pz p) (pz q)).

(** Modelled from the spec: cgp::Vector::cross(a, b) (vecpnt.h is not in
    src/); the cross product [a x b]. *)
Definition cross (a b : Vector) : Vector :=
  mkVector (fsub (fmul (vj a) (vk b)) (fmul (vk a) (vj b)))
           (fsub (fmul (vk a) (vi b)) (fmul (vi a) (vk b)))
           (fsub (fmul (vi a) (vj b)) (fmul (vj a) (vi b))).

(** Modelled from the spec: cgp::Vector::mult(c) (vecpnt.h is not in src/);
    every component is multiplied by the scalar. *)
Definition mult (u : Vector) (c : F) : Vector :=
  mkVector (fmul (vi u) c) (fmul (vj u) c) (fmul (vk u) c).

(** Modelled from the spec: the squared Euclidean length that
    cgp::Vector::normalize divides by the root of. *)
Definition sqrdlength (u : Vector) : F :=
  fadd (fadd (fmul (vi u) (vi u)) (fmul (vj u) (vj u))) (fmul (vk u) (vk u)).

(** Modelled from the spec: cgp::Vector::normalize() (vecpnt.h is not in
    src/); every component is divided by the Euclidean length. *)
Definition normalize (u : Vector) : Vector :=
  let len := fsqrt (sqrdlength u) in
  mkVector (fdiv (vi u) len) (fdiv (vj u) len) (fdiv (vk u) len).

(** The opposite vector, componentwise. *)
Definition vopp (u : Vector) : Vector :=
  mkVector (fopp (vi u)) (fopp (vj u)) (fopp (vk u)).

(* ================================================================= *)
(** ** Indexing a std::vector by an [int] *)

(** [operator[]] with an [int] index.  An index outside of the vector is
    undefined behaviour in C++; it is [None] here. *)
Definition at_index {A : Type} (l : list A) (n : Z) : option A :=
  if n <? 0 then None else nth_error l (Z.to_nat n).

Definition in_bounds {A : Type} (l : list A) (n : Z) : Prop :=
  0 <= n < Z.of_nat (length l).

(* ================================================================= *)
(** ** struct Triangle *)

(** [int v[3]] is kept as the three fields [v0], [v1], [v2]. *)
Record Triangle : Type := mkTriangle {
  v0 : Z;
  v1 : Z;
  v2 : Z;
  n : Vector
}.

(** Triangle::vertexFound *)
Definition vertexFound (t : Triangle) (vertex : Z) : bool :=
  if (vertex =? v0 t) || (vertex =? v1 t) || (vertex =? v2 t)
  then true
  else false.

Section DeriveNormal.

(** cgp::Vector::operator==, the tolerance-based comparison of vecpnt.h
    (not in src/), is a parameter. *)
Variable veq : Vector -> Vector -> bool.

(** The local [normal] of Triangle::deriveNormal once it has been
    normalized: lines 42 to 59. *)
Definition faceNormal (vts : list Point) (t : Triangle) : option Vector :=
  match at_index vts (v0 t), at_index vts (v1 t), at_index vts (v2 t) with
  | Some p1, Some p2, Some p3 =>
      let a := diff p3 p2 in
      let b := diff p1 p2 in
      let normal := cross a b in
      let normal := mult normal (fofZ (-1)) in
      Some (normalize normal)
  | _, _, _ => None
  end.

(** The search loop of lines 62 to 69: [found] after the loop. *)
Fixpoint found (normals : list Vector) (normal : Vector) : bool :=
  match normals with
  | [] => false
  | m :: rest => if veq m normal then true else found rest normal
  end.

(** Triangle::deriveNormal: the normals list after the call. *)
Definition deriveNormal (normals : list Vector) (vts : list Point)
    (t : Triangle) : option (list Vector) :=
  match faceNormal vts t with
  | Some normal =>
      Some (if found normals normal then normals else normals ++ [normal])
  | None => None
  end.

End DeriveNormal.

(** The triangle with its winding started one vertex later. *)
Definition rotate (t : Triangle) : Triangle :=
  mkTriangle (v1 t) (v2 t) (v0 t) (n t).

(** The triangle with its winding reversed. *)
Definition reverse (t : Triangle) : Triangle :=
  mkTriangle (v2 t) (v1 t) (v0 t) (n t).

(* ================================================================= *)
(** ** struct Edge *)

(** [int v[2]] is kept as the two fields [ev0], [ev1]. *)
Record Edge : Type := mkEdge {
  ev0 : Z;
  ev1 : Z
}.

(* ================================================================= *)
(** ** class Sphere and class Mesh: the data members *)

Record Sphere : Type := mkSphere {
  c : Point;
  r : F;
  ind : list Z
}.

(** The data members of [Mesh].  [col], a borrowed [GLfloat] pointer, and
    [geometry], whose type comes from renderer.h, are read by no member
    embedded here and are left out. *)
Record Mesh : Type := mkMesh {
  verts : list Point;
  base : list Point;
  norms : list Vector;
  tris : list Triangle;
  scale : F;
  trx : Vector;
  xrot : F;
  yrot : F;
  zrot : F;
  boundspheres : list Sphere
}.

Definition withVerts (m : Mesh) (vs : list Point) : Mesh :=
  mkMesh vs (base m) (norms m) (tris m) (scale m) (trx m)
         (xrot m) (yrot m) (zrot m) (boundspheres m).

Definition withTris (m : Mesh) (ts : list Triangle) : Mesh :=
  mkMesh (verts m) (base m) (norms m) ts (scale m) (trx m)
         (xrot m) (yrot m) (zrot m) (boundspheres m).

(* ================================================================= *)
(** ** class Mesh: the members defined in mesh.h *)

(** Mesh::empty *)
Definition empty (m : Mesh) : bool :=
  match verts m with
  | [] => true
  | _ :: _ => false
  end.

(** Mesh::setScale and Mesh::getScale *)
Definition setScale (m : Mesh) (scf : F) : Mesh :=
  mkMesh (verts m) (base m) (norms m) (tris m) scf (trx m)
         (xrot m) (yrot m) (zrot m) (boundspheres m).

Definition getScale (m : Mesh) : F := scale m.

(** Mesh::setTranslation and Mesh::getTranslation *)
Definition setTranslation (m : Mesh) (tvec : Vector) : Mesh :=
  mkMesh (verts m) (base m) (norms m) (tris m) (scale m) tvec
         (xrot m) (yrot m) (zrot m) (boundspheres m).

Definition getTranslation (m : Mesh) : Vector := trx m.

(** Mesh::setRotations and Mesh::getRotations; the three reference
    parameters of getRotations are returned as a triple. *)
Definition setRotations (m : Mesh) (ax ay az : F) : Mesh :=
  mkMesh (verts m) (base m) (norms m) (tris m) (scale m) (trx m)
         ax ay az (boundspheres m).

Definition getRotations (m : Mesh) : F * F * F := (xrot m, yrot m, zrot m).

(** The cast [(int)] of a [size_t]: the value is reduced modulo 2^32 into
    the range of a 32-bit [int]. *)
Definition toInt (z : Z) : Z := (z + 2 ^ 31) mod 2 ^ 32 - 2 ^ 31.

(** Mesh::getNumVerts and Mesh::getNumFaces *)
Definition getNumVerts (m : Mesh) : Z := toInt (Z.of_nat (length (verts m))).

Definition getNumFaces (m : Mesh) : Z := toInt (Z.of_nat (length (tris m))).

(** Mesh::getVerts and Mesh::getCubeTriangles *)
Definition getVerts (m : Mesh) : list Point := verts m.

Definition getCubeTriangles (m : Mesh) : list Triangle := tris m.

(** The local [Triangle t] of Mesh::setCubeTriangles after its three
    indices have been assigned; its normal is the default-constructed
    vector. *)
Definition cubeTri (a b d : Z) : Triangle := mkTriangle a b d Vector0.

(** Mesh::setCubeTriangles *)
Definition setCubeTriangles (m : Mesh) : Mesh :=
  withTris m
    [ cubeTri 1 2 3; cubeTri 3 4 1;     (* front *)
      cubeTri 4 3 5; cubeTri 5 6 4;     (* right *)
      cubeTri 6 5 7; cubeTri 7 8 6;     (* back *)
      cubeTri 8 7 2; cubeTri 2 1 8;     (* left *)
      cubeTri 8 1 4; cubeTri 4 6 8;     (* top *)
      cubeTri 2 7 5; cubeTri 5 3 2 ].   (* bottom *)

(* ================================================================= *)
(** ** Mesh::mergeVerts *)

Section Welding.

(** cgp::BoundBox and the loop that includes every vertex in it,
    Mesh::hashVert (declared in mesh.h, defined in mesh.cpp) and the
    comparison of two positions are not in src/; they are parameters. *)
Variable BoundBox : Type.
Variable boundOf : list Point -> BoundBox.
Variable hashVert : Point -> BoundBox -> Z.
Variable peq : Point -> Point -> bool.

(** Modelled from the spec: the bucket lookup of Mesh::mergeVerts
    (mesh.cpp is not in src/).  Among the canonical vertices [clean], whose
    first index is [idx], the first one that lies in the bucket of [p] and
    compares equal to [p]. *)
Fixpoint findCanonical (bbox : BoundBox) (clean : list Point) (p : Point)
    (idx : Z) : option Z :=
  match clean with
  | [] => None
  | q :: rest =>
      if (hashVert q bbox =? hashVert p bbox) && peq q p
      then Some idx
      else findCanonical bbox rest p (idx + 1)
  end.

(** Modelled from the spec: the welding loop of Mesh::mergeVerts (mesh.cpp
    is not in src/).  Every vertex is looked up in its bucket; the first
    occurrence becomes canonical and is appended to [clean], a later one is
    mapped to the canonical index.  [remap] lists the new index of every
    vertex seen so far. *)
Fixpoint weld (bbox : BoundBox) (vs clean : list Point) (remap : list Z)
    : list Point * list Z :=
  match vs with
  | [] => (clean, remap)
  | p :: rest =>
      match findCanonical bbox clean p 0 with
      | Some idx => weld bbox rest clean (remap ++ [idx])
      | None =>
          weld bbox rest (clean ++ [p]) (remap ++ [Z.of_nat (length clean)])
      end
  end.

(** Modelled from the spec: the rewriting of one triangle index; an index
    that no vertex has is left as it is. *)
Definition remapIndex (remap : list Z) (idx : Z) : Z :=
  match at_index remap idx with
  | Some canonical => canonical
  | None => idx
  end.

(** Modelled from the spec: the rewriting of the three indices of a
    triangle, in place, so that its winding order is kept. *)
Definition remapTriangle (remap : list Z) (t : Triangle) : Triangle :=
  mkTriangle (remapIndex remap (v0 t)) (remapIndex remap (v1 t))
             (remapIndex remap (v2 t)) (n t).

(** Modelled from the spec: Mesh::mergeVerts (declared in mesh.h, defined
    in mesh.cpp, which is not in src/).  The bounding box of the vertices is
    computed, the vertices are welded through the spatial hash, and every
    triangle is rewritten to the compacted indices, in its winding order. *)
Definition mergeVerts (m : Mesh) : Mesh :=
  let bbox := boundOf (verts m) in
  let (clean, remap) := weld bbox (verts m) [] [] in
  withTris (withVerts m clean) (map (remapTriangle remap) (tris m)).

(** Mesh::mergeAllVerts *)
Definition mergeAllVerts (m : Mesh) : Mesh := mergeVerts m.

End Welding.

(* ================================================================= *)
(** ** Mesh::sameEdge and Mesh::manifoldValidity *)

(** Modelled from the spec: Mesh::sameEdge (declared in mesh.h, defined in
    mesh.cpp, which is not in src/).  The first component tells whether the
    two edges index the same vertices, the second is the out-parameter
    [opposite]. *)
Definition sameEdge (e1 e2 : Edge) : bool * bool :=
  if (ev0 e1 =? ev0 e2) && (ev1 e1 =? ev1 e2) then (true, false)
  else if (ev0 e1 =? ev1 e2) && (ev1 e1 =? ev0 e2) then (true, true)
  else (false, false).

(** Modelled from the spec: the three edges of a triangle, in winding
    order, as Mesh::manifoldValidity walks them. *)
Definition triEdges (t : Triangle) : list Edge :=
  [ mkEdge (v0 t) (v1 t); mkEdge (v1 t) (v2 t); mkEdge (v2 t) (v0 t) ].

(** Modelled from the spec: the first edge of [t] that Mesh::sameEdge
    reports to index the vertices of [e], if any. *)
Definition traversal (e : Edge) (t : Triangle) : option Edge :=
  find (fun e' => fst (sameEdge e e')) (triEdges t).

(** Modelled from the spec: triangle [t] is incident to edge [e]. *)
Definition incident (e : Edge) (t : Triangle) : bool :=
  match traversal e t with
  | Some _ => true
  | None => false
  end.

(** Modelled from the spec: the test of one edge in
    Mesh::manifoldValidity; exactly two triangles are incident to the edge
    and they traverse it in opposite directions. *)
Definition edgeManifold (e : Edge) (ts : list Triangle) : bool :=
  match filter (incident e) ts with
  | [t1; t2] =>
      match traversal e t1, traversal e t2 with
      | Some a, Some b => snd (sameEdge a b)
      | _, _ => false
      end
  | _ => false
  end.

(** Modelled from the spec: the edge part of Mesh::manifoldValidity; every
    edge of every triangle passes [edgeManifold]. *)
Definition edgesManifold (ts : list Triangle) : bool :=
  forallb (fun t => forallb (fun e => edgeManifold e ts) (triEdges t)) ts.

(** Modelled from the spec: two triangles meet in an edge at vertex
    [vertex]; both hold it and share another vertex. *)
Definition fanLinked (vertex : Z) (t1 t2 : Triangle) : bool :=
  vertexFound t1 vertex && vertexFound t2 vertex
  && existsb (fun w => negb (w =? vertex) && vertexFound t2 w)
             [v0 t1; v1 t1; v2 t1].

(** [fanLinked] for the triangles at two places of the triangle list. *)
Definition linkedAt (vertex : Z) (ts : list Triangle) (i j : nat) : bool :=
  match nth_error ts i, nth_error ts j with
  | Some a, Some b => fanLinked vertex a b
  | _, _ => false
  end.

Definition memNat (j : nat) (reached : list nat) : bool :=
  existsb (Nat.eqb j) reached.

(** One round of a traversal over the places [0 .. k-1]: the places not
    reached yet that are linked to a reached one are added. *)
Definition closureStep (k : nat) (link : nat -> nat -> bool)
    (reached : list nat) : list nat :=
  reached
  ++ filter (fun j => negb (memNat j reached)
                      && existsb (fun i => link i j) reached)
            (seq 0 k).

(** The places reached from [start] after as many rounds as there are
    places. *)
Definition closure (k : nat) (link : nat -> nat -> bool) (start : nat)
    : list nat :=
  Nat.iter k (closureStep k link) [start].

(** The reached places are closed under the links. *)
Definition Closed (link : nat -> nat -> bool) (reached : list nat) : Prop :=
  forall i j, In i reached -> link i j = true -> In j reached.

(** The places of the triangles that hold vertex [vertex]. *)
Definition incidentAt (vertex : Z) (ts : list Triangle) : list nat :=
  filter (fun j => match nth_error ts j with
                   | Some t => vertexFound t vertex
                   | None => false
                   end)
         (seq 0 (length ts)).

(** Modelled from the spec: the vertex part of Mesh::manifoldValidity for
    one vertex; the triangles that hold the vertex form a single fan, that
    is, every one of them is reached from the first by stepping across
    edges at the vertex. *)
Definition singleFan (vertex : Z) (ts : list Triangle) : bool :=
  match incidentAt vertex ts with
  | [] => true
  | start :: others =>
      forallb (fun j => memNat j (closure (length ts) (linkedAt vertex ts)
                                          start))
              others
  end.

(** Modelled from the spec: the vertex part of Mesh::manifoldValidity;
    every vertex of every triangle passes [singleFan]. *)
Definition vertsManifold (ts : list Triangle) : bool :=
  forallb (fun t => forallb (fun w => singleFan w ts) [v0 t; v1 t; v2 t]) ts.

(** Modelled from the spec: Mesh::manifoldValidity (declared in mesh.h,
    defined in mesh.cpp, which is not in src/); every edge is shared by
    exactly two triangles with opposite traversal, and the triangles at
    every vertex form a single fan. *)
Definition manifoldValidity (m : Mesh) : bool :=
  edgesManifold (tris m) && vertsManifold (tris m).

(* ================================================================= *)
(** ** Mesh::laplacianSmooth *)

(** The three indices [v[0]], [v[1]], [v[2]] of a triangle. *)
Definition corners (t : Triangle) : list Z := [v0 t; v1 t; v2 t].

(** Modelled from the spec: the vertices joined to vertex [i] by an edge
    of some triangle, each listed once. *)
Definition neighbours (ts : list Triangle) (i : Z) : list Z :=
  nodup Z.eq_dec
    (flat_map (fun t => if vertexFound t i
                        then filter (fun j => negb (j =? i)) (corners t)
                        else [])
              ts).

(** Modelled from the spec: the positions, in [old], of the neighbours of
    vertex [i]. *)
Definition neighbourPoints (old : list Point) (ts : list Triangle) (i : Z)
    : list Point :=
  flat_map (fun j => match at_index old j with
                     | Some p => [p]
                     | None => []
                     end)
           (neighbours ts i).

(** Modelled from the spec: the componentwise sum of a list of points. *)
Definition sumPoints (ps : list Point) : Point :=
  fold_left (fun acc p => mkPoint (fadd (px acc) (px p))
                                  (fadd (py acc) (py p))
                                  (fadd (pz acc) (pz p)))
            ps (mkPoint f0 f0 f0).

(** Modelled from the spec: the average position of a list of points. *)
Definition centroid (ps : list Point) : Point :=
  let s := sumPoints ps in
  let k := fofZ (Z.of_nat (length ps)) in
  mkPoint (fdiv (px s) k) (fdiv (py s) k) (fdiv (pz s) k).

(** Modelled from the spec: the point reached from [p] by going the
    proportion [rate] of the way to [q]. *)
Definition moveToward (rate : F) (p q : Point) : Point :=
  mkPoint (fadd (px p) (fmul rate (fsub (px q) (px p))))
          (fadd (py p) (fmul rate (fsub (py q) (py p))))
          (fadd (pz p) (fmul rate (fsub (pz q) (pz p)))).

(** Modelled from the spec: one iteration of Mesh::laplacianSmooth
    (mesh.cpp is not in src/).  Every vertex moves toward the average of its
    neighbours; all the averages are taken over [old], the positions before
    the iteration. *)
Definition smoothStep (rate : F) (ts : list Triangle) (old : list Point)
    : list Point :=
  map (fun ip => moveToward rate (snd ip)
                   (centroid (neighbourPoints old ts (Z.of_nat (fst ip)))))
      (combine (seq 0 (length old)) old).

(** Modelled from the spec: Mesh::laplacianSmooth (declared in mesh.h,
    defined in mesh.cpp, which is not in src/); [iter] iterations of
    [smoothStep], none when [iter] is not positive. *)
Definition laplacianSmooth (iter : Z) (rate : F) (m : Mesh) : Mesh :=
  withVerts m (Nat.iter (Z.to_nat iter) (smoothStep rate (tris m)) (verts m)).

(* ================================================================= *)
(** ** Mesh::readSTL *)

Section STL.

Variable BoundBox : Type.
Variable boundOf : list Point -> BoundBox.
Variable hashVert : Point -> BoundBox -> Z.
Variable peq : Point -> Point -> bool.

(** The decoding of the 32 bits of an IEEE-754 single into a [float] is a
    parameter. *)
Variable fofBits : Z -> F.

(** Modelled from the spec: the little-endian unsigned integer held by the
    first four bytes. *)
Definition le32 (bs : list byte) : Z :=
  fold_right (fun b acc => Z.of_N (Byte.to_N b) + 256 * acc) 0 (firstn 4 bs).

(** Modelled from the spec: a little-endian IEEE-754 single, and three of
    them in a row read as a position or as a vector. *)
Definition readFloat (bs : list byte) : F := fofBits (le32 bs).

Definition readPoint (bs : list byte) : Point :=
  mkPoint (readFloat bs) (readFloat (skipn 4 bs)) (readFloat (skipn 8 bs)).

Definition readVector (bs : list byte) : Vector :=
  mkVector (readFloat bs) (readFloat (skipn 4 bs)) (readFloat (skipn 8 bs)).

(** Modelled from the spec: the facet records of a binary STL file, 50
    bytes each: the normal, the three corners and a 2-byte attribute that is
    ignored.  The corners of facet number [k] become the vertices [3k],
    [3k+1] and [3k+2]. *)
Fixpoint readFacets (count : nat) (k : Z) (bs : list byte)
    : list Point * list Triangle :=
  match count with
  | O => ([], [])
  | S count' =>
      let nrm := readVector bs in
      let p1 := readPoint (skipn 12 bs) in
      let p2 := readPoint (skipn 24 bs) in
      let p3 := readPoint (skipn 36 bs) in
      let (ps, ts) := readFacets count' (k + 1) (skipn 50 bs) in
      (p1 :: p2 :: p3 :: ps,
       mkTriangle (3 * k) (3 * k + 1) (3 * k + 2) nrm :: ts)
  end.

(** Modelled from the spec: Mesh::readSTL (declared in mesh.h, defined in
    mesh.cpp, which is not in src/).  [file] is the content of the named
    file, [None] when it cannot be opened.  The layout is validated before
    anything is committed: an 80-byte header, a 4-byte triangle count, and
    exactly 50 bytes for each counted triangle.  A valid file replaces the
    vertices and triangles, which are then welded. *)
Definition readSTL (file : option (list byte)) (m : Mesh) : bool * Mesh :=
  match file with
  | None => (false, m)
  | Some bs =>
      if (length bs <? 84)%nat then (false, m)
      else
        let count := le32 (skipn 80 bs) in
        if Z.of_nat (length bs) - 84 =? 50 * count
        then
          let (ps, ts) := readFacets (Z.to_nat count) 0 (skipn 84 bs) in
          (true, mergeVerts BoundBox boundOf hashVert peq
                   (withTris (withVerts m ps) ts))
        else (false, m)
  end.

End STL.

End Geometry.

Arguments Point : clear implicits.
Arguments Vector : clear implicits.
Arguments Triangle : clear implicits.
Arguments Sphere : clear implicits.
Arguments Mesh : clear implicits.

(* ================================================================= *)
(** ** Specification predicates *)

Section Predicates.
Context {FO : FloatOps}.

(** The three vertex indices of a triangle lie inside the vertex list. *)
Definition triInBounds (vts : list (Point FO)) (t : Triangle FO) : Prop :=
  in_bounds vts (v0 t) /\ in_bounds vts (v1 t) /\ in_bounds vts (v2 t).

(** Under the comparison [eqv], every entry compares unequal to every
    later entry. *)
Definition laterDistinct {A : Type} (eqv : A -> A -> bool) (l : list A)
    : Prop :=
  forall i j a b, (i < j)%nat ->
    nth_error l i = Some a -> nth_error l j = Some b -> eqv a b = false.

(** Under the comparison [eqv], any two entries at different places compare
    unequal. *)
Definition pairwiseDistinct {A : Type} (eqv : A -> A -> bool) (l : list A)
    : Prop :=
  forall i j a b, i <> j ->
    nth_error l i = Some a -> nth_error l j = Some b -> eqv a b = false.

(** Positions that compare equal fall into the same bucket, whatever the
    bounding box. *)
Definition hashConsistent {BoundBox : Type}
    (hashVert : Point FO -> BoundBox -> Z)
    (peq : Point FO -> Point FO -> bool) : Prop :=
  forall p q bb, peq p q = true -> hashVert p bb = hashVert q bb.

(** The two edges join the same two vertices, in either direction. *)
Definition SameEndpoints (e e' : Edge) : Prop :=
  (ev0 e = ev0 e' /\ ev1 e = ev1 e') \/ (ev0 e = ev1 e' /\ ev1 e = ev0 e').

(** Edge [b] runs from the end of [a] to its start, and not also from its
    start to its end. *)
Definition OppositeDir (a b : Edge) : Prop :=
  ev0 a = ev1 b /\ ev1 a = ev0 b /\ ~ (ev0 a = ev0 b /\ ev1 a = ev1 b).

(** Triangle [t] has an edge between the endpoints of [e]. *)
Definition Incident (e : Edge) (t : Triangle FO) : Prop :=
  exists e', In e' (triEdges t) /\ SameEndpoints e e'.

(** [e] is an edge of some triangle of the mesh. *)
Definition meshEdge (m : Mesh FO) (e : Edge) : Prop :=
  exists t, In t (tris m) /\ In e (triEdges t).

(** Exactly two triangles of [ts], the ones at places [i] and [j], are
    incident to [e], and they traverse it in opposite directions. *)
Definition ExactlyTwoOpposite (e : Edge) (ts : list (Triangle FO)) : Prop :=
  exists i j t1 t2 a b,
    (i < j)%nat /\
    nth_error ts i = Some t1 /\ nth_error ts j = Some t2 /\
    (forall k t, nth_error ts k = Some t ->
                 (Incident e t <-> k = i \/ k = j)) /\
    traversal e t1 = Some a /\ traversal e t2 = Some b /\
    OppositeDir a b.

(** The directed edges of a triangle, following its winding
    [v[0]], [v[1]], [v[2]] and back to [v[0]]. *)
Definition windingEdges (t : Triangle FO) : list (Z * Z) :=
  [(v0 t, v1 t); (v1 t, v2 t); (v2 t, v0 t)].

(** The triangles at places [i] and [j] both hold vertex [vertex] and
    share another vertex: they meet in an edge at [vertex]. *)
Definition FanLink (vertex : Z) (ts : list (Triangle FO)) (i j : nat)
    : Prop :=
  exists a b w,
    nth_error ts i = Some a /\ nth_error ts j = Some b /\
    vertexFound a vertex = true /\ vertexFound b vertex = true /\
    w <> vertex /\ vertexFound a w = true /\ vertexFound b w = true.

(** The triangles that hold vertex [vertex] form a single fan: any two of
    them are joined by a chain of triangles in which each meets the next in
    an edge at [vertex]. *)
Definition SingleFan (vertex : Z) (ts : list (Triangle FO)) : Prop :=
  forall i j a b,
    nth_error ts i = Some a -> nth_error ts j = Some b ->
    vertexFound a vertex = true -> vertexFound b vertex = true ->
    clos_refl_trans nat (FanLink vertex ts) i j.

(** The layout of a binary STL file: the header and the count are there,
    and what follows them is 50 bytes for each counted triangle. *)
Definition wellFramed (bs : list byte) : Prop :=
  (84 <= length bs)%nat /\
  Z.of_nat (length bs) - 84 = 50 * le32 (skipn 80 bs).

End Predicates.

(* ================================================================= *)
(** ** Sample data over the integers *)

(** Componentwise equality of integer vectors and points. *)
Definition veqZ (a b : Vector ZOps) : bool :=
  (vi a =? vi b) && (vj a =? vj b) && (vk a =? vk b).

Definition peqZ (p q : Point ZOps) : bool :=
  (px p =? px q) && (py p =? py q) && (pz p =? pz q).

Definition pointZ (x y z : Z) : Point ZOps := mkPoint (FO := ZOps) x y z.

Definition vectorZ (i j k : Z) : Vector ZOps := mkVector (FO := ZOps) i j k.

(** A right triangle in the plane z = 0. *)
Definition cornerVerts : list (Point ZOps) :=
  [pointZ 0 0 0; pointZ 1 0 0; pointZ 0 1 0].

Definition cornerTri : Triangle ZOps := mkTriangle 0 1 2 (vectorZ 0 0 0).

(** The eight corners of the unit cube, and a mesh that holds them and
    nothing else. *)
Definition cubeVerts : list (Point ZOps) :=
  [pointZ 0 0 0; pointZ 1 0 0; pointZ 1 1 0; pointZ 0 1 0;
   pointZ 0 0 1; pointZ 1 0 1; pointZ 1 1 1; pointZ 0 1 1].

Definition meshZ (vs : list (Point ZOps)) (ts : list (Triangle ZOps))
    : Mesh ZOps :=
  mkMesh vs [] [] ts 1 (vectorZ 0 0 0) 0 0 0 [].

Definition cubeMesh : Mesh ZOps := meshZ cubeVerts [].

(** The same corners behind an unused entry at index 0. *)
Definition paddedCubeMesh : Mesh ZOps := meshZ (pointZ 0 0 0 :: cubeVerts) [].

(** A triangle that names vertex 1 twice. *)
Definition sliverTri : Triangle ZOps := mkTriangle 0 1 1 (vectorZ 0 0 0).

(** A spatial hash over integer points: the bounding box is the pair of
    its least and greatest corners, and the key packs the offsets from the
    least corner. *)
Definition boundOfZ (vs : list (Point ZOps)) : Point ZOps * Point ZOps :=
  fold_left
    (fun bb p =>
       (pointZ (Z.min (px (fst bb)) (px p)) (Z.min (py (fst bb)) (py p))
               (Z.min (pz (fst bb)) (pz p)),
        pointZ (Z.max (px (snd bb)) (px p)) (Z.max (py (snd bb)) (py p))
               (Z.max (pz (snd bb)) (pz p))))
    vs
    (match vs with
     | [] => (pointZ 0 0 0, pointZ 0 0 0)
     | p :: _ => (p, p)
     end).

Definition hashVertZ (p : Point ZOps) (bb : Point ZOps * Point ZOps) : Z :=
  (px p - px (fst bb))
  + 1024 * ((py p - py (fst bb)) + 1024 * (pz p - pz (fst bb))).

Definition mergeVertsZ : Mesh ZOps -> Mesh ZOps :=
  mergeVerts (Point ZOps * Point ZOps) boundOfZ hashVertZ peqZ.

(** Two triangles that share an edge, stored with a copy of its three
    corners for each, as a binary STL file stores them. *)
Definition soupMesh : Mesh ZOps :=
  meshZ [pointZ 0 0 0; pointZ 1 0 0; pointZ 0 1 0;
         pointZ 0 1 0; pointZ 1 0 0; pointZ 1 1 0]
        [mkTriangle 0 1 2 (vectorZ 0 0 1); mkTriangle 3 4 5 (vectorZ 0 0 1)].

(** A tetrahedron wound consistently, and the same with its last face
    taken away. *)
Definition tetVerts : list (Point ZOps) :=
  [pointZ 0 0 0; pointZ 3 0 0; pointZ 0 3 0; pointZ 0 0 3].

Definition tetMesh : Mesh ZOps :=
  meshZ tetVerts
        [mkTriangle 0 2 1 (vectorZ 0 0 0); mkTriangle 0 1 3 (vectorZ 0 0 0);
         mkTriangle 1 2 3 (vectorZ 0 0 0); mkTriangle 0 3 2 (vectorZ 0 0 0)].

Definition openTetMesh : Mesh ZOps :=
  meshZ tetVerts
        [mkTriangle 0 2 1 (vectorZ 0 0 0); mkTriangle 0 1 3 (vectorZ 0 0 0);
         mkTriangle 1 2 3 (vectorZ 0 0 0)].

(** Two tetrahedra, each wound consistently, that touch in vertex 0 and
    nowhere else. *)
Definition touchTetsMesh : Mesh ZOps :=
  meshZ (tetVerts ++ [pointZ (-3) 0 0; pointZ 0 (-3) 0; pointZ 0 0 (-3)])
        [mkTriangle 0 2 1 (vectorZ 0 0 0); mkTriangle 0 1 3 (vectorZ 0 0 0);
         mkTriangle 1 2 3 (vectorZ 0 0 0); mkTriangle 0 3 2 (vectorZ 0 0 0);
         mkTriangle 0 5 4 (vectorZ 0 0 0); mkTriangle 0 4 6 (vectorZ 0 0 0);
         mkTriangle 4 5 6 (vectorZ 0 0 0); mkTriangle 0 6 5 (vectorZ 0 0 0)].

(** A comparison of integer points with a tolerance of one unit along
    every axis, and a spatial hash with four cells along every axis of the
    bounding box. *)
Definition peqTolZ (p q : Point ZOps) : bool :=
  (Z.abs (px p - px q) <=? 1) && (Z.abs (py p - py q) <=? 1)
  && (Z.abs (pz p - pz q) <=? 1).

Definition cellZ (coord lo hi : Z) : Z := ((coord - lo) * 4) / (hi - lo + 1).

Definition hashQuantZ (p : Point ZOps) (bb : Point ZOps * Point ZOps) : Z :=
  cellZ (px p) (px (fst bb)) (px (snd bb))
  + 4 * (cellZ (py p) (py (fst bb)) (py (snd bb))
         + 4 * cellZ (pz p) (pz (fst bb)) (pz (snd bb))).

Definition mergeVertsTol : Mesh ZOps -> Mesh ZOps :=
  mergeVerts (Point ZOps * Point ZOps) boundOfZ hashQuantZ peqTolZ.

(** Four vertices on a line, the last three one unit apart. *)
Definition lineMesh : Mesh ZOps :=
  meshZ [pointZ 0 0 0; pointZ 6 0 0; pointZ 7 0 0; pointZ 8 0 0]
        [mkTriangle 0 1 3 (vectorZ 0 0 0)].

(** Sample data in binary32.  Values are compared through their three
    coordinates. *)
Definition vectorCoords (u : Vector Float32Ops)
    : spec_float * spec_float * spec_float :=
  (vi u, vj u, vk u).

Definition pointCoords (p : Point Float32Ops)
    : spec_float * spec_float * spec_float :=
  (px p, py p, pz p).

Definition float32 (z : Z) : spec_float := binary_normalize 24 128 z 0 false.

Definition point32 (x y z : Z) : Point Float32Ops :=
  mkPoint (FO := Float32Ops) (fofZ x) (fofZ y) (fofZ z).

Definition mesh32 (vs : list (Point Float32Ops))
    (ts : list (Triangle Float32Ops)) : Mesh Float32Ops :=
  mkMesh vs [] [] ts f1 Vector0 f0 f0 f0 [].

(** A thin triangle with a corner at the origin. *)
Definition needleVerts : list (Point Float32Ops) :=
  [point32 4098 4097 0; point32 0 0 0; point32 4097 4096 0].

Definition needleTri : Triangle Float32Ops := mkTriangle 0 1 2 Vector0.

(** A triangle with one far corner, and a vertex that no triangle
    references. *)
Definition farMesh : Mesh Float32Ops :=
  mesh32 [point32 134217728 2 0; point32 1 2 0; point32 3 2 0;
          point32 7 7 7]
         [mkTriangle 0 1 2 Vector0].

(** Reading of integer meshes: the 32 bits of a coordinate are taken as
    the integer they spell. *)
Definition readSTLZ : option (list byte) -> Mesh ZOps -> bool * Mesh ZOps :=
  readSTL (Point ZOps * Point ZOps) boundOfZ hashVertZ peqZ (fun bits => bits).

(** A file that stops inside of its header, and a complete header that
    announces one triangle and stops there. *)
Definition shortFile : list byte := repeat x00 10.

Definition headerOnlyFile : list byte :=
  repeat x00 80 ++ [x01; x00; x00; x00].

(** A complete file holding no triangle. *)
Definition noFacetFile : list byte := repeat x00 84.

(* ================================================================= *)
(** * Part II: properties *)

(** ** The integers are an exact arithmetic *)

Lemma Zquot_opp_num (a b : Z) : Z.quot (- a) b = - Z.quot a b.
Proof.
  destruct (Z.eq_dec b 0) as [-> | Hb].
  - now destruct a.
  - now apply Z.quot_opp_l.
Qed.

#[export] Instance ZExact : ExactArith ZOps.
Proof.
  constructor; try reflexivity.
  - exact Zth.
  - exact Zquot_opp_num.
Qed.

(** ** The real numbers are an exact arithmetic *)

Lemma RExact : ExactArith ROps.
Proof.
  constructor; try reflexivity.
  - exact RTheory.
  - intros a b. simpl. unfold Rdiv. ring.
Qed.

(* ================================================================= *)
(** ** Indexing *)

Lemma at_index_in_bounds {A : Type} (l : list A) (k : Z) :
  in_bounds l k -> exists x, at_index l k = Some x.
Proof.
  intros [Hlo Hhi]. unfold at_index.
  destruct (k <? 0) eqn:E; [apply Z.ltb_lt in E; lia|].
  destruct (nth_error l (Z.to_nat k)) eqn:N; [now eexists|].
  apply nth_error_None in N. lia.
Qed.

Lemma at_index_Some_in_bounds {A : Type} (l : list A) (k : Z) (x : A) :
  at_index l k = Some x -> in_bounds l k.
Proof.
  unfold at_index, in_bounds. destruct (k <? 0) eqn:E; [discriminate|].
  intros N. apply Z.ltb_ge in E.
  assert (Z.to_nat k < length l)%nat by (apply nth_error_Some; congruence).
  lia.
Qed.

(* ================================================================= *)
(** ** Vector algebra in exact arithmetic *)

Section ExactVectors.
Context {FO : FloatOps} {EA : ExactArith FO}.

Add Ring ExactScalars : (@exact_ring FO EA).

Lemma mult_minus_one (u : Vector FO) : mult u (fofZ (-1)) = vopp u.
Proof.
  unfold mult, vopp. rewrite exact_minus_one. f_equal; ring.
Qed.

Lemma mult_vopp (u : Vector FO) (k : F) : mult (vopp u) k = vopp (mult u k).
Proof. unfold mult, vopp; simpl. f_equal; ring. Qed.

Lemma sqrdlength_vopp (u : Vector FO) : sqrdlength (vopp u) = sqrdlength u.
Proof. unfold sqrdlength, vopp; simpl. ring. Qed.

Lemma normalize_vopp (u : Vector FO) :
  normalize (vopp u) = vopp (normalize u).
Proof.
  unfold normalize. rewrite sqrdlength_vopp.
  unfold vopp; simpl. now rewrite !exact_div_opp.
Qed.

(** The cross product is antisymmetric. *)
Lemma cross_swap (a b : Vector FO) : cross b a = vopp (cross a b).
Proof. unfold cross, vopp; simpl. f_equal; ring. Qed.

(** Starting the winding one vertex later leaves the cross product of the
    two edge vectors as it is. *)
Lemma cross_rotate (p1 p2 p3 : Point FO) :
  cross (diff p1 p3) (diff p2 p3) = cross (diff p3 p2) (diff p1 p2).
Proof. unfold cross, diff; simpl. f_equal; ring. Qed.

(** The cross product of deriveNormal does not depend on the sense in
    which [diff] subtracts. *)
Lemma cross_diff_sense (p1 p2 p3 : Point FO) :
  cross (diff p2 p3) (diff p2 p1) = cross (diff p3 p2) (diff p1 p2).
Proof. unfold cross, diff; simpl. f_equal; ring. Qed.

(** Going none of the way leaves the point where it is; going all the way
    reaches the target. *)
Lemma moveToward_zero (p q : Point FO) : moveToward f0 p q = p.
Proof. destruct p. unfold moveToward; simpl. f_equal; ring. Qed.

Lemma moveToward_one (p q : Point FO) : moveToward f1 p q = q.
Proof. destruct p, q. unfold moveToward; simpl. f_equal; ring. Qed.

End ExactVectors.

(* ================================================================= *)
(** ** Triangle::deriveNormal *)

Section DeriveNormalFacts.
Context {FO : FloatOps}.
Variable veq : Vector FO -> Vector FO -> bool.

Lemma deriveNormal_candidate_aux (normals : list (Vector FO))
    (vts : list (Point FO)) (t : Triangle FO) :
  triInBounds vts t ->
  exists nrm,
    faceNormal vts t = Some nrm /\
    deriveNormal veq normals vts t
    = Some (if found veq normals nrm then normals else normals ++ [nrm]).
Proof.
  intros (H0 & H1 & H2).
  destruct (at_index_in_bounds _ _ H0) as [p1 E1].
  destruct (at_index_in_bounds _ _ H1) as [p2 E2].
  destruct (at_index_in_bounds _ _ H2) as [p3 E3].
  unfold deriveNormal, faceNormal. rewrite E1, E2, E3.
  eexists. split; reflexivity.
Qed.

(** C1: for a triangle whose three indices are inside the vertex list, the
    normal that deriveNormal computes is the normalization of the cross
    product (p3-p2) x (p1-p2) multiplied by -1, which in exact arithmetic is
    its opposite; deriveNormal appends exactly this vector to the normals
    list unless the search loop finds it there. *)
Theorem deriveNormal_candidate :
  forall (normals : list (Vector FO)) (vts : list (Point FO)) (t : Triangle FO),
    triInBounds vts t ->
    exists p1 p2 p3,
      at_index vts (v0 t) = Some p1 /\
      at_index vts (v1 t) = Some p2 /\
      at_index vts (v2 t) = Some p3 /\
      let product := cross (diff p3 p2) (diff p1 p2) in
      let candidate := normalize (mult product (fofZ (-1))) in
      faceNormal vts t = Some candidate /\
      (ExactArith FO -> candidate = normalize (vopp product)) /\
      deriveNormal veq normals vts t
      = Some (if found veq normals candidate
              then normals
              else normals ++ [candidate]).
Proof.
  intros normals vts t (H0 & H1 & H2).
  destruct (at_index_in_bounds _ _ H0) as [p1 E1].
  destruct (at_index_in_bounds _ _ H1) as [p2 E2].
  destruct (at_index_in_bounds _ _ H2) as [p3 E3].
  exists p1, p2, p3. repeat split; try assumption.
  - unfold faceNormal. now rewrite E1, E2, E3.
  - intros EA. now rewrite mult_minus_one.
  - unfold deriveNormal, faceNormal. now rewrite E1, E2, E3.
Qed.

Lemma found_false (normals : list (Vector FO)) (nrm : Vector FO) :
  found veq normals nrm = false ->
  forall m, In m normals -> veq m nrm = false.
Proof.
  induction normals as [|a rest IH]; simpl; [contradiction|].
  destruct (veq a nrm) eqn:E; [discriminate|].
  intros Hf m [<- | Hin]; [exact E | now apply IH].
Qed.

Lemma laterDistinct_snoc {A : Type} (eqv : A -> A -> bool) (l : list A)
    (x : A) :
  laterDistinct eqv l -> (forall a, In a l -> eqv a x = false) ->
  laterDistinct eqv (l ++ [x]).
Proof.
  intros Hl Hx i j a b Hij Ha Hb.
  assert (Hj : (j < length (l ++ [x]))%nat)
    by (apply nth_error_Some; congruence).
  rewrite length_app in Hj; simpl in Hj.
  rewrite nth_error_app1 in Ha by lia.
  destruct (Nat.eq_dec j (length l)) as [-> | Hne].
  - rewrite nth_error_app2, Nat.sub_diag in Hb by lia.
    injection Hb as <-. apply Hx. eapply nth_error_In; eassumption.
  - rewrite nth_error_app1 in Hb by lia. exact (Hl i j a b Hij Ha Hb).
Qed.

Lemma laterDistinct_pairwise {A : Type} (eqv : A -> A -> bool) (l : list A) :
  (forall a b, eqv a b = eqv b a) ->
  laterDistinct eqv l -> pairwiseDistinct eqv l.
Proof.
  intros Hsym Hl i j a b Hij Ha Hb.
  destruct (Nat.lt_ge_cases i j) as [Hlt | Hge].
  - exact (Hl i j a b Hlt Ha Hb).
  - rewrite Hsym. apply (Hl j i b a); [lia | exact Hb | exact Ha].
Qed.

Lemma pairwise_laterDistinct {A : Type} (eqv : A -> A -> bool) (l : list A) :
  pairwiseDistinct eqv l -> laterDistinct eqv l.
Proof.
  intros Hl i j a b Hij. apply Hl. lia.
Qed.

(** C8: deriveNormal appends a vector only when the comparison of every
    entry of the normals list with it is false; hence a normals list whose
    entries each compare unequal to every later entry keeps that property,
    and, the comparison being symmetric, a list of pairwise distinct
    entries stays a list of pairwise distinct entries. *)
Theorem deriveNormal_distinct :
  forall (normals : list (Vector FO)) (vts : list (Point FO)) (t : Triangle FO),
    triInBounds vts t ->
    exists normals',
      deriveNormal veq normals vts t = Some normals' /\
      (normals' = normals \/
       exists nrm, normals' = normals ++ [nrm] /\
                   forall m, In m normals -> veq m nrm = false) /\
      (laterDistinct veq normals -> laterDistinct veq normals') /\
      ((forall a b, veq a b = veq b a) ->
       pairwiseDistinct veq normals -> pairwiseDistinct veq normals').
Proof.
  intros normals vts t B.
  destruct (deriveNormal_candidate_aux normals vts t B) as (nrm & HF & HD).
  rewrite HD. destruct (found veq normals nrm) eqn:Efound.
  - exists normals. repeat split; auto.
  - pose proof (found_false _ _ Efound) as Hnew.
    exists (normals ++ [nrm]). repeat split.
    + right. exists nrm. split; [reflexivity | exact Hnew].
    + intros Hl. now apply laterDistinct_snoc.
    + intros Hsym Hl. apply laterDistinct_pairwise; [exact Hsym|].
      apply laterDistinct_snoc; [now apply pairwise_laterDistinct | exact Hnew].
Qed.

End DeriveNormalFacts.

Lemma deriveNormal_candidate_witness :
  triInBounds cornerVerts cornerTri /\
  faceNormal cornerVerts cornerTri = Some (vectorZ 0 0 (-1)) /\
  deriveNormal veqZ [vectorZ 1 0 0] cornerVerts cornerTri
  = Some [vectorZ 1 0 0; vectorZ 0 0 (-1)].
Proof.
  assert (B : triInBounds cornerVerts cornerTri)
    by (unfold triInBounds, in_bounds; simpl; lia).
  split; [exact B|].
  destruct (deriveNormal_candidate veqZ [vectorZ 1 0 0] cornerVerts cornerTri B)
    as (p1 & p2 & p3 & E1 & E2 & E3 & HF & _ & HD).
  injection E1 as <-. injection E2 as <-. injection E3 as <-.
  split; [exact HF | exact HD].
Defined.

Lemma deriveNormal_distinct_witness :
  triInBounds cornerVerts cornerTri /\
  exists normals',
    deriveNormal veqZ [vectorZ 1 0 0] cornerVerts cornerTri = Some normals' /\
    pairwiseDistinct veqZ normals'.
Proof.
  assert (B : triInBounds cornerVerts cornerTri)
    by (unfold triInBounds, in_bounds; simpl; lia).
  split; [exact B|].
  destruct (deriveNormal_distinct veqZ [vectorZ 1 0 0] cornerVerts cornerTri B)
    as (normals' & HD & _ & _ & HP).
  exists normals'. split; [exact HD|].
  apply HP.
  - intros a b. unfold veqZ.
    now rewrite (Z.eqb_sym (vi a)), (Z.eqb_sym (vj a)), (Z.eqb_sym (vk a)).
  - intros i j a b Hij Ha Hb.
    assert (Hi : (i < length [vectorZ 1 0 0])%nat)
      by (apply nth_error_Some; congruence).
    assert (Hj : (j < length [vectorZ 1 0 0])%nat)
      by (apply nth_error_Some; congruence).
    simpl in Hi, Hj. lia.
Defined.

(* ================================================================= *)
(** ** Winding *)

Section WindingFacts.
Context {FO : FloatOps}.
Variable veq : Vector FO -> Vector FO -> bool.


End WindingFacts.



(* ================================================================= *)
(** ** Mesh::setCubeTriangles and Mesh::empty *)

Section MeshFacts.
Context {FO : FloatOps}.

(** C9: after setCubeTriangles the triangle list holds exactly 12
    triangles, every index of every one of them lies between 1 and 8, index
    0 is referenced by none and index 8 by some; on a mesh of 8 vertices
    index 8 is outside of the vertex list, so that some triangle is not in
    bounds. *)
Theorem setCubeTriangles_indices :
  forall m : Mesh FO,
    let ts := tris (setCubeTriangles m) in
    length ts = 12%nat /\
    (forall t, In t ts ->
       1 <= v0 t <= 8 /\ 1 <= v1 t <= 8 /\ 1 <= v2 t <= 8) /\
    (forall t, In t ts -> vertexFound t 0 = false) /\
    (exists t, In t ts /\ vertexFound t 8 = true) /\
    (length (verts m) = 8%nat ->
       at_index (verts (setCubeTriangles m)) 8 = None /\
       ~ in_bounds (verts (setCubeTriangles m)) 8 /\
       exists t, In t ts /\ ~ triInBounds (verts (setCubeTriangles m)) t).
Proof.
  intros m ts. subst ts. simpl.
  split; [reflexivity|]. split; [|split; [|split]].
  - intros t Hin.
    repeat (destruct Hin as [<- | Hin]; [simpl; lia|]). contradiction.
  - intros t Hin.
    repeat (destruct Hin as [<- | Hin]; [reflexivity|]). contradiction.
  - exists (cubeTri 7 8 6). split; [|reflexivity]. simpl. tauto.
  - intros Hlen.
    assert (Hout : ~ in_bounds (verts m) 8) by (unfold in_bounds; lia).
    split; [|split; [exact Hout|]].
    + unfold at_index. change (8 <? 0) with false; cbv iota.
      apply nth_error_None. change (verts (withTris m _)) with (verts m).
      rewrite Hlen. apply Nat.eq_le_incl. reflexivity.
    + exists (cubeTri 7 8 6). split; [simpl; tauto|].
      intros (_ & B & _). exact (Hout B).
Qed.

(** C10: empty answers true exactly when the vertex list is empty, whatever
    the triangle list holds; a mesh without vertices to which
    setCubeTriangles has given twelve triangles is still reported empty. *)
Theorem empty_iff_no_verts :
  forall m : Mesh FO,
    (empty m = true <-> verts m = []) /\
    (forall ts, empty (withTris m ts) = empty m) /\
    (verts m = [] ->
       tris (setCubeTriangles m) <> [] /\ empty (setCubeTriangles m) = true).
Proof.
  intros m. split; [|split].
  - unfold empty. destruct (verts m); split; intros H;
      try reflexivity; discriminate H.
  - reflexivity.
  - intros Hv. split; [discriminate|].
    unfold empty, setCubeTriangles; simpl. now rewrite Hv.
Qed.

End MeshFacts.

Lemma setCubeTriangles_indices_witness :
  length (verts cubeMesh) = 8%nat /\
  at_index (verts (setCubeTriangles cubeMesh)) 8 = None /\
  exists t, In t (tris (setCubeTriangles cubeMesh)) /\
            ~ triInBounds (verts (setCubeTriangles cubeMesh)) t.
Proof.
  split; [reflexivity|].
  destruct (setCubeTriangles_indices cubeMesh) as (_ & _ & _ & _ & H).
  destruct (H eq_refl) as (HA & _ & HT).
  split; [exact HA | exact HT].
Defined.

Lemma empty_iff_no_verts_witness :
  verts (meshZ [] []) = [] /\
  empty (meshZ [] []) = true /\
  tris (setCubeTriangles (meshZ [] [])) <> [] /\
  empty (setCubeTriangles (meshZ [] [])) = true.
Proof.
  split; [reflexivity|].
  destruct (empty_iff_no_verts (meshZ [] [])) as (HE & _ & HS).
  split; [apply HE; reflexivity | apply HS; reflexivity].
Defined.

(* ================================================================= *)
(** ** Mesh::mergeVerts *)

Section WeldingFacts.
Context {FO : FloatOps}.
Variable BoundBox : Type.
Variable boundOf : list (Point FO) -> BoundBox.
Variable hashVert : Point FO -> BoundBox -> Z.
Variable peq : Point FO -> Point FO -> bool.

Local Abbreviation findCanonical := (findCanonical BoundBox hashVert peq).
Local Abbreviation weld := (weld BoundBox hashVert peq).
Local Abbreviation mergeVerts := (mergeVerts BoundBox boundOf hashVert peq).

Local Abbreviation hashConsistent := (hashConsistent hashVert peq).

Lemma findCanonical_None (bbox : BoundBox) (clean : list (Point FO))
    (p : Point FO) (idx : Z) :
  findCanonical bbox clean p idx = None ->
  forall q, In q clean ->
    (hashVert q bbox =? hashVert p bbox) && peq q p = false.
Proof.
  revert idx. induction clean as [|a rest IH]; simpl; intros idx H q Hin.
  - contradiction.
  - destruct ((hashVert a bbox =? hashVert p bbox) && peq a p) eqn:E;
      [discriminate|].
    destruct Hin as [<- | Hin]; [exact E | eapply IH; eassumption].
Qed.

Lemma findCanonical_all_differ (bbox : BoundBox) (clean : list (Point FO))
    (p : Point FO) (idx : Z) :
  (forall q, In q clean -> peq q p = false) ->
  findCanonical bbox clean p idx = None.
Proof.
  revert idx. induction clean as [|a rest IH]; simpl; intros idx H.
  - reflexivity.
  - rewrite (H a) by now left. rewrite andb_false_r.
    apply IH. intros q Hq. apply H. now right.
Qed.

Lemma weld_lengths (bbox : BoundBox) (vs : list (Point FO)) :
  forall clean remap clean' remap',
    weld bbox vs clean remap = (clean', remap') ->
    (length clean <= length clean' <= length clean + length vs)%nat /\
    length remap' = (length remap + length vs)%nat.
Proof.
  induction vs as [|p rest IH]; simpl; intros clean remap clean' remap' H.
  - injection H as <- <-. lia.
  - destruct (findCanonical bbox clean p 0).
    + apply IH in H. rewrite length_app in H. simpl in H. lia.
    + apply IH in H. rewrite !length_app in H. simpl in H. lia.
Qed.

Lemma weld_laterDistinct (bbox : BoundBox) (vs : list (Point FO)) :
  hashConsistent ->
  forall clean remap clean' remap',
    laterDistinct peq clean ->
    weld bbox vs clean remap = (clean', remap') ->
    laterDistinct peq clean'.
Proof.
  intros Hc. induction vs as [|p rest IH]; simpl;
    intros clean remap clean' remap' Hd H.
  - now injection H as <- <-.
  - destruct (findCanonical bbox clean p 0) eqn:E.
    + eapply IH; eassumption.
    + eapply IH; [|eassumption].
      apply laterDistinct_snoc; [exact Hd|].
      intros q Hq. pose proof (findCanonical_None _ _ _ _ E q Hq) as Hqp.
      destruct (peq q p) eqn:Epq; [|reflexivity].
      rewrite (Hc q p bbox Epq), Z.eqb_refl in Hqp. discriminate.
Qed.

(** Welding vertices that already differ from one another keeps them all,
    in order, and numbers them as they were. *)
Lemma weld_distinct (bbox : BoundBox) (vs : list (Point FO)) :
  forall clean remap,
    laterDistinct peq (clean ++ vs) ->
    weld bbox vs clean remap
    = (clean ++ vs,
       remap ++ map Z.of_nat (seq (length clean) (length vs))).
Proof.
  induction vs as [|p rest IH]; simpl; intros clean remap Hd.
  - now rewrite !app_nil_r.
  - rewrite findCanonical_all_differ.
    + rewrite IH.
      * rewrite <- !app_assoc, length_app. simpl.
        now rewrite Nat.add_1_r.
      * now rewrite <- app_assoc.
    + intros q Hq. apply In_nth_error in Hq. destruct Hq as [i Hi].
      assert (i < length clean)%nat by (apply nth_error_Some; congruence).
      apply (Hd i (length clean) q p); [assumption | |].
      * now rewrite nth_error_app1.
      * now rewrite nth_error_app2, Nat.sub_diag by lia.
Qed.

Lemma remapIndex_identity (k : nat) (idx : Z) :
  remapIndex (map Z.of_nat (seq 0 k)) idx = idx.
Proof.
  unfold remapIndex, at_index. destruct (idx <? 0) eqn:E; [reflexivity|].
  apply Z.ltb_ge in E.
  destruct (nth_error (map Z.of_nat (seq 0 k)) (Z.to_nat idx)) eqn:N;
    [|reflexivity].
  rewrite nth_error_map in N.
  destruct (nth_error (seq 0 k) (Z.to_nat idx)) eqn:S; [|discriminate].
  injection N as <-.
  assert (Z.to_nat idx < length (seq 0 k))%nat
    by (apply nth_error_Some; congruence).
  rewrite length_seq in H.
  rewrite nth_error_nth' with (d := 0%nat) in S by now rewrite length_seq.
  rewrite seq_nth in S by assumption. injection S as <-. lia.
Qed.

Lemma remapTriangle_identity (k : nat) (t : Triangle FO) :
  remapTriangle (map Z.of_nat (seq 0 k)) t = t.
Proof.
  destruct t. unfold remapTriangle; simpl.
  now rewrite !remapIndex_identity.
Qed.

Lemma laterDistinct_nil {A : Type} (eqv : A -> A -> bool) :
  laterDistinct eqv [].
Proof. intros i j a b _ Ha. now destruct i. Qed.


End WeldingFacts.

Lemma hashVertZ_consistent :
  hashConsistent hashVertZ peqZ.
Proof.
  intros p q bb H. unfold peqZ in H.
  apply andb_true_iff in H. destruct H as [H Hz].
  apply andb_true_iff in H. destruct H as [Hx Hy].
  apply Z.eqb_eq in Hx, Hy, Hz. unfold hashVertZ. now rewrite Hx, Hy, Hz.
Qed.



(* ================================================================= *)
(** ** Lists filtered down to two entries *)

Lemma filter_nil_iff {A : Type} (f : A -> bool) (l : list A) :
  filter f l = [] <-> forall x, In x l -> f x = false.
Proof.
  split.
  - intros H x Hin. destruct (f x) eqn:E; [|reflexivity].
    assert (Hx : In x (filter f l)) by (apply filter_In; now split).
    rewrite H in Hx. contradiction.
  - induction l as [|a rest IH]; simpl; intros H; [reflexivity|].
    rewrite (H a) by now left. apply IH. intros x Hx. apply H. now right.
Qed.

(** The first entry that passes the filter splits the list. *)
Lemma filter_cons_split {A : Type} (f : A -> bool) (l : list A) (x : A)
    (r : list A) :
  filter f l = x :: r ->
  exists l1 l2,
    l = l1 ++ x :: l2 /\ filter f l1 = [] /\ f x = true /\ filter f l2 = r.
Proof.
  induction l as [|a rest IH]; simpl; [discriminate|].
  destruct (f a) eqn:E.
  - intros H. injection H as -> <-. exists [], rest. now repeat split.
  - intros H. destruct (IH H) as (l1 & l2 & -> & H1 & Hx & H2).
    exists (a :: l1), l2. simpl. rewrite E. now repeat split.
Qed.

Lemma filter_two {A : Type} (f : A -> bool) (l : list A) (t1 t2 : A) :
  filter f l = [t1; t2] <->
  exists i j,
    (i < j)%nat /\ nth_error l i = Some t1 /\ nth_error l j = Some t2 /\
    forall k t, nth_error l k = Some t -> (f t = true <-> k = i \/ k = j).
Proof.
  split.
  - intros H.
    destruct (filter_cons_split _ _ _ _ H) as (l1 & r & -> & H1 & Ht1 & Hr).
    destruct (filter_cons_split _ _ _ _ Hr) as (l3 & l4 & -> & H3 & Ht2 & H4).
    rewrite filter_nil_iff in H1, H3, H4.
    exists (length l1), (length l1 + 1 + length l3)%nat.
    split; [lia|]. split; [|split].
    + now rewrite nth_error_app2, Nat.sub_diag by lia.
    + rewrite nth_error_app2 by lia.
      replace (length l1 + 1 + length l3 - length l1)%nat
        with (S (length l3)) by lia.
      simpl. now rewrite nth_error_app2, Nat.sub_diag by lia.
    + intros k t Hk.
      destruct (Nat.lt_ge_cases k (length l1)) as [Hlt | Hge].
      { rewrite nth_error_app1 in Hk by assumption.
        apply nth_error_In in Hk. rewrite (H1 t Hk).
        split; [discriminate | lia]. }
      rewrite nth_error_app2 in Hk by assumption.
      destruct (k - length l1)%nat as [|k1] eqn:Ek; simpl in Hk.
      { injection Hk as <-. split; [lia | now intros _]. }
      destruct (Nat.lt_ge_cases k1 (length l3)) as [Hlt | Hge3].
      { rewrite nth_error_app1 in Hk by assumption.
        apply nth_error_In in Hk. rewrite (H3 t Hk).
        split; [discriminate | lia]. }
      rewrite nth_error_app2 in Hk by assumption.
      destruct (k1 - length l3)%nat as [|k2] eqn:Ek2; simpl in Hk.
      { injection Hk as <-. split; [lia | now intros _]. }
      apply nth_error_In in Hk. rewrite (H4 t Hk).
      split; [discriminate | lia].
  - intros (i & j & Hij & Hi & Hj & Honly).
    destruct (nth_error_split l i Hi) as (l1 & r & -> & Hl1).
    rewrite nth_error_app2 in Hj by lia.
    destruct (j - length l1)%nat as [|j1] eqn:Ej; [lia|]. simpl in Hj.
    destruct (nth_error_split r j1 Hj) as (l3 & l4 & -> & Hl3).
    assert (F1 : filter f l1 = []).
    { apply filter_nil_iff. intros x Hx.
      destruct (In_nth_error _ _ Hx) as [k Hk].
      assert (k < length l1)%nat by (apply nth_error_Some; congruence).
      destruct (f x) eqn:E; [|reflexivity].
      assert (k = i \/ k = j)
        by (apply (Honly k x); [now rewrite nth_error_app1 | exact E]).
      lia. }
    assert (F3 : filter f l3 = []).
    { apply filter_nil_iff. intros x Hx.
      destruct (In_nth_error _ _ Hx) as [k Hk].
      assert (k < length l3)%nat by (apply nth_error_Some; congruence).
      destruct (f x) eqn:E; [|reflexivity].
      assert (length l1 + S k = i \/ length l1 + S k = j)%nat.
      { apply (Honly _ x); [|exact E].
        rewrite nth_error_app2 by lia.
        replace (length l1 + S k - length l1)%nat with (S k) by lia.
        simpl. now rewrite nth_error_app1. }
      lia. }
    assert (F4 : filter f l4 = []).
    { apply filter_nil_iff. intros x Hx.
      destruct (In_nth_error _ _ Hx) as [k Hk].
      destruct (f x) eqn:E; [|reflexivity].
      assert (length l1 + S (length l3 + S k) = i
              \/ length l1 + S (length l3 + S k) = j)%nat.
      { apply (Honly _ x); [|exact E].
        rewrite nth_error_app2 by lia.
        replace (length l1 + S (length l3 + S k) - length l1)%nat
          with (S (length l3 + S k)) by lia.
        simpl. rewrite nth_error_app2 by lia.
        replace (length l3 + S k - length l3)%nat with (S k) by lia.
        exact Hk. }
      lia. }
    assert (T1 : f t1 = true).
    { apply (Honly i t1); [|now left].
      now rewrite nth_error_app2, Hl1, Nat.sub_diag by lia. }
    assert (T2 : f t2 = true).
    { apply (Honly j t2); [|now right].
      rewrite nth_error_app2 by lia. rewrite Ej. simpl.
      now rewrite nth_error_app2, Hl3, Nat.sub_diag by lia. }
    rewrite filter_app. simpl. rewrite T1, filter_app. simpl.
    now rewrite T2, F1, F3, F4.
Qed.

(* ================================================================= *)
(** ** Traversal by rounds reaches exactly what is linked to the start *)

Section ClosureFacts.
Variable k : nat.
Variable link : nat -> nat -> bool.
Hypothesis link_bound : forall i j, link i j = true -> (j < k)%nat.

Local Abbreviation step := (closureStep k link).
Local Abbreviation fresh reached :=
  (filter (fun j => negb (memNat j reached)
                    && existsb (fun i => link i j) reached)
          (seq 0 k)).

Local Abbreviation Closed := (Closed link).

Lemma memNat_iff (j : nat) (reached : list nat) :
  memNat j reached = true <-> In j reached.
Proof.
  unfold memNat. rewrite existsb_exists. split.
  - intros (x & Hx & E). apply Nat.eqb_eq in E. now subst.
  - intros H. exists j. split; [exact H | apply Nat.eqb_refl].
Qed.

Lemma fresh_In (reached : list nat) (j : nat) :
  In j (fresh reached) <->
  (j < k)%nat /\ ~ In j reached /\ exists i, In i reached /\ link i j = true.
Proof.
  rewrite filter_In, in_seq, andb_true_iff, negb_true_iff, existsb_exists.
  rewrite <- not_true_iff_false, memNat_iff. split.
  - intros (Hk & Hn & Hl). split; [lia|]. now split.
  - intros (Hk & Hn & Hl). split; [lia|]. now split.
Qed.

Lemma fresh_nil_closed (reached : list nat) :
  fresh reached = [] -> Closed reached.
Proof.
  intros E i j Hi Hl.
  destruct (memNat j reached) eqn:M; [now apply memNat_iff|].
  assert (Hj : In j (fresh reached)).
  { apply fresh_In. split; [now apply (link_bound i)|]. split.
    - intros H. apply memNat_iff in H. congruence.
    - now exists i. }
  rewrite E in Hj. contradiction.
Qed.

Lemma closed_step (reached : list nat) :
  Closed reached -> step reached = reached.
Proof.
  intros C. unfold closureStep.
  assert (E : fresh reached = []).
  { destruct (fresh reached) as [|x rest] eqn:E; [reflexivity|].
    assert (Hx : In x (fresh reached)) by (rewrite E; now left).
    apply fresh_In in Hx. destruct Hx as (_ & Hn & i & Hi & Hl).
    exfalso. apply Hn. exact (C i x Hi Hl). }
  rewrite E. apply app_nil_r.
Qed.

Lemma step_incl (reached : list nat) : incl reached (step reached).
Proof. intros x Hx. unfold closureStep. apply in_or_app. now left. Qed.

Lemma step_bounded (reached : list nat) :
  (forall x, In x reached -> (x < k)%nat) ->
  forall x, In x (step reached) -> (x < k)%nat.
Proof.
  intros Hb x Hx. unfold closureStep in Hx. apply in_app_or in Hx.
  destruct Hx as [Hx | Hx]; [now apply Hb|].
  now apply fresh_In in Hx.
Qed.

Lemma step_NoDup (reached : list nat) :
  NoDup reached -> NoDup (step reached).
Proof.
  intros Hn. unfold closureStep. apply NoDup_app.
  - exact Hn.
  - apply NoDup_filter, seq_NoDup.
  - intros x Hx Hf. apply fresh_In in Hf. tauto.
Qed.

Lemma iter_incl (rounds : nat) (reached : list nat) :
  incl reached (Nat.iter rounds step reached).
Proof.
  induction rounds as [|r IH]; simpl; [apply incl_refl|].
  eapply incl_tran; [exact IH | apply step_incl].
Qed.

(** After some rounds the reached places are closed under the links, or
    every round so far has added a place. *)
Lemma iter_closed_or_grows (rounds : nat) (reached : list nat) :
  NoDup reached -> (forall x, In x reached -> (x < k)%nat) ->
  let after := Nat.iter rounds step reached in
  NoDup after /\ (forall x, In x after -> (x < k)%nat) /\
  (Closed after \/ (length reached + rounds <= length after)%nat).
Proof.
  intros Hn Hb. induction rounds as [|r IH]; simpl.
  - split; [exact Hn|]. split; [exact Hb|]. right. lia.
  - destruct IH as (Hn' & Hb' & Hc).
    split; [now apply step_NoDup|]. split; [now apply step_bounded|].
    destruct Hc as [Hc | Hg].
    + left. now rewrite closed_step.
    + destruct (fresh (Nat.iter r step reached)) as [|x rest] eqn:E.
      * left. rewrite closed_step; now apply fresh_nil_closed.
      * right. unfold closureStep at 1. rewrite length_app.
        cbv zeta in Hg. rewrite E. simpl. lia.
Qed.

Lemma closure_closed (start : nat) :
  (start < k)%nat -> Closed (closure k link start).
Proof.
  intros Hs. unfold closure.
  destruct (iter_closed_or_grows k [start]) as (Hn & Hb & [Hc | Hg]).
  - constructor; [intros []|constructor].
  - intros x [<- | []]. exact Hs.
  - exact Hc.
  - exfalso.
    assert (L : (length (Nat.iter k step [start]) <= length (seq 0 k))%nat).
    { apply NoDup_incl_length; [exact Hn|].
      intros x Hx. apply in_seq. specialize (Hb x Hx). lia. }
    rewrite length_seq in L. simpl in Hg. lia.
Qed.

Lemma iter_sound (rounds : nat) (reached : list nat) (x : nat) :
  In x (Nat.iter rounds step reached) ->
  exists s, In s reached
            /\ clos_refl_trans nat (fun i j => link i j = true) s x.
Proof.
  revert x. induction rounds as [|r IH]; simpl; intros x Hx.
  - exists x. split; [exact Hx | apply rt_refl].
  - unfold closureStep in Hx. apply in_app_or in Hx.
    destruct Hx as [Hx | Hx]; [now apply IH|].
    apply fresh_In in Hx. destruct Hx as (_ & _ & i & Hi & Hl).
    destruct (IH i Hi) as (s & Hs & Hr). exists s. split; [exact Hs|].
    eapply rt_trans; [exact Hr | now apply rt_step].
Qed.

(** The traversal reaches exactly the places joined to the start by a
    chain of links. *)
Lemma closure_reach (start x : nat) :
  (start < k)%nat ->
  (In x (closure k link start) <->
   clos_refl_trans nat (fun i j => link i j = true) start x).
Proof.
  intros Hs. split.
  - intros Hx. destruct (iter_sound k [start] x Hx) as (s & [<- | []] & Hr).
    exact Hr.
  - intros Hr. apply clos_rt_rtn1 in Hr.
    induction Hr as [|y z Hyz _ IH].
    + apply (iter_incl k [start]). now left.
    + exact (closure_closed start Hs y z IH Hyz).
Qed.

End ClosureFacts.

Lemma vertexFound_corner {FO : FloatOps} (t : Triangle FO) (j : Z) :
  vertexFound t j = true <-> In j (corners t).
Proof.
  unfold vertexFound, corners. simpl.
  destruct (j =? v0 t) eqn:E0; destruct (j =? v1 t) eqn:E1;
    destruct (j =? v2 t) eqn:E2; simpl;
    rewrite ?Z.eqb_eq, ?Z.eqb_neq in *;
    (split; [intros H; try discriminate H; auto
            | intros [H|[H|[H|H]]]; try reflexivity; try contradiction;
              congruence]).
Qed.

(* ================================================================= *)
(** ** Mesh::sameEdge and Mesh::manifoldValidity *)

Section ManifoldFacts.
Context {FO : FloatOps}.

Lemma sameEdge_same (e e' : Edge) :
  fst (sameEdge e e') = true <-> SameEndpoints e e'.
Proof.
  unfold sameEdge, SameEndpoints.
  destruct (ev0 e =? ev0 e') eqn:E00; destruct (ev1 e =? ev1 e') eqn:E11;
    destruct (ev0 e =? ev1 e') eqn:E01; destruct (ev1 e =? ev0 e') eqn:E10;
    simpl;
    rewrite ?Z.eqb_eq, ?Z.eqb_neq in *;
    (split; [intros H; try discriminate H; tauto | intros H; try reflexivity; lia]).
Qed.

Lemma sameEdge_opposite (a b : Edge) :
  snd (sameEdge a b) = true <-> OppositeDir a b.
Proof.
  unfold sameEdge, OppositeDir.
  destruct (ev0 a =? ev0 b) eqn:E00; destruct (ev1 a =? ev1 b) eqn:E11;
    destruct (ev0 a =? ev1 b) eqn:E01; destruct (ev1 a =? ev0 b) eqn:E10;
    simpl;
    rewrite ?Z.eqb_eq, ?Z.eqb_neq in *;
    (split; [intros H; try discriminate H; lia | intros H; try reflexivity; lia]).
Qed.

Lemma incident_iff (e : Edge) (t : Triangle FO) :
  incident e t = true <-> Incident e t.
Proof.
  unfold incident, Incident, traversal.
  destruct (find (fun e' => fst (sameEdge e e')) (triEdges t)) as [a|] eqn:E.
  - apply find_some in E. destruct E as [Hin Hs].
    split; [|reflexivity]. intros _. exists a.
    split; [exact Hin | now apply sameEdge_same].
  - split; [discriminate|]. intros (e' & Hin & Hs).
    apply sameEdge_same in Hs.
    pose proof (find_none _ _ E e' Hin) as Hn. simpl in Hn. congruence.
Qed.

Lemma traversal_incident (e a : Edge) (t : Triangle FO) :
  traversal e t = Some a -> incident e t = true.
Proof. unfold incident. now intros ->. Qed.

Lemma edgeManifold_iff (e : Edge) (ts : list (Triangle FO)) :
  edgeManifold e ts = true <-> ExactlyTwoOpposite e ts.
Proof.
  unfold edgeManifold, ExactlyTwoOpposite. split.
  - destruct (filter (incident e) ts) as [|t1 [|t2 [|t3 r]]] eqn:E;
      try discriminate.
    apply filter_two in E. destruct E as (i & j & Hij & Hi & Hj & Honly).
    destruct (traversal e t1) as [a|] eqn:Ta; [|discriminate].
    destruct (traversal e t2) as [b|] eqn:Tb; [|discriminate].
    intros Hopp. exists i, j, t1, t2, a, b.
    repeat split; try assumption.
    + intros HI. apply (Honly k t H). now apply incident_iff.
    + intros Hk. apply incident_iff. now apply (Honly k t H).
    + now apply sameEdge_opposite.
    + now apply sameEdge_opposite.
    + now apply sameEdge_opposite.
  - intros (i & j & t1 & t2 & a & b & Hij & Hi & Hj & Honly & Ta & Tb & Hopp).
    assert (E : filter (incident e) ts = [t1; t2]).
    { apply filter_two. exists i, j. repeat split; try assumption.
      - intros HI. apply (Honly k t H). now apply incident_iff.
      - intros Hk. apply incident_iff. now apply (Honly k t H). }
    rewrite E, Ta, Tb. now apply sameEdge_opposite.
Qed.

Lemma edgesManifold_iff (m : Mesh FO) :
  edgesManifold (tris m) = true <->
  forall e, meshEdge m e -> ExactlyTwoOpposite e (tris m).
Proof.
  unfold edgesManifold, meshEdge. rewrite forallb_forall. split.
  - intros H e (t & Ht & He). apply edgeManifold_iff.
    specialize (H t Ht). rewrite forallb_forall in H. now apply H.
  - intros H t Ht. apply forallb_forall. intros e He.
    apply edgeManifold_iff. apply H. now exists t.
Qed.

Lemma linkedAt_iff (vertex : Z) (ts : list (Triangle FO)) (i j : nat) :
  linkedAt vertex ts i j = true <-> FanLink vertex ts i j.
Proof.
  unfold linkedAt, FanLink, fanLinked. split.
  - destruct (nth_error ts i) as [a|]; [|discriminate].
    destruct (nth_error ts j) as [b|]; [|discriminate].
    rewrite !andb_true_iff, existsb_exists.
    intros ((Fa & Fb) & w & Hw & Hc).
    apply andb_true_iff in Hc. destruct Hc as [Hne Fw].
    apply negb_true_iff, Z.eqb_neq in Hne.
    exists a, b, w. repeat split; try assumption.
    now apply vertexFound_corner.
  - intros (a & b & w & -> & -> & Fa & Fb & Hne & Fwa & Fwb).
    rewrite Fa, Fb. cbn [andb]. apply existsb_exists. exists w.
    split; [now apply (vertexFound_corner a w)|].
    apply andb_true_iff. split; [|exact Fwb].
    now apply negb_true_iff, Z.eqb_neq.
Qed.

Lemma linkedAt_bound (vertex : Z) (ts : list (Triangle FO)) (i j : nat) :
  linkedAt vertex ts i j = true -> (j < length ts)%nat.
Proof.
  unfold linkedAt. destruct (nth_error ts i); [|discriminate].
  destruct (nth_error ts j) eqn:E; [|discriminate].
  intros _. apply nth_error_Some. congruence.
Qed.

Lemma FanLink_sym (vertex : Z) (ts : list (Triangle FO)) (i j : nat) :
  FanLink vertex ts i j -> FanLink vertex ts j i.
Proof.
  intros (a & b & w & Hi & Hj & Fa & Fb & Hne & Fwa & Fwb).
  exists b, a, w. now repeat split.
Qed.

Lemma chain_sym (vertex : Z) (ts : list (Triangle FO)) (i j : nat) :
  clos_refl_trans nat (FanLink vertex ts) i j ->
  clos_refl_trans nat (FanLink vertex ts) j i.
Proof.
  induction 1 as [x y H | x | x y z _ IH1 _ IH2].
  - apply rt_step. now apply FanLink_sym.
  - apply rt_refl.
  - eapply rt_trans; eassumption.
Qed.

Lemma chain_linkedAt (vertex : Z) (ts : list (Triangle FO)) (i j : nat) :
  clos_refl_trans nat (fun x y => linkedAt vertex ts x y = true) i j <->
  clos_refl_trans nat (FanLink vertex ts) i j.
Proof.
  split; induction 1 as [x y H | x | x y z _ IH1 _ IH2];
    try apply rt_refl; try (eapply rt_trans; eassumption);
    apply rt_step; now apply linkedAt_iff.
Qed.

Lemma incidentAt_In (vertex : Z) (ts : list (Triangle FO)) (j : nat) :
  In j (incidentAt vertex ts) <->
  exists t, nth_error ts j = Some t /\ vertexFound t vertex = true.
Proof.
  unfold incidentAt. rewrite filter_In, in_seq. split.
  - intros (_ & H). destruct (nth_error ts j) as [t|]; [|discriminate].
    now exists t.
  - intros (t & Ht & Hf). rewrite Ht. split; [|exact Hf].
    assert (j < length ts)%nat by (apply nth_error_Some; congruence). lia.
Qed.

Lemma singleFan_iff (vertex : Z) (ts : list (Triangle FO)) :
  singleFan vertex ts = true <-> SingleFan vertex ts.
Proof.
  unfold singleFan, SingleFan.
  destruct (incidentAt vertex ts) as [|start others] eqn:E.
  - split; [|reflexivity]. intros _ i j a b Hi Hj Fa Fb.
    assert (Hin : In i (incidentAt vertex ts))
      by (apply incidentAt_In; now exists a).
    rewrite E in Hin. contradiction.
  - assert (Hs : In start (incidentAt vertex ts)) by (rewrite E; now left).
    apply incidentAt_In in Hs. destruct Hs as (ts0 & Hts0 & Fs).
    assert (Hlt : (start < length ts)%nat)
      by (apply nth_error_Some; congruence).
    rewrite forallb_forall. split.
    + intros H i j a b Hi Hj Fa Fb.
      assert (R : forall x tx, nth_error ts x = Some tx ->
                               vertexFound tx vertex = true ->
                               clos_refl_trans nat (FanLink vertex ts) start x).
      { intros x tx Hx Fx.
        assert (Hin : In x (incidentAt vertex ts))
          by (apply incidentAt_In; now exists tx).
        rewrite E in Hin. destruct Hin as [<- | Hin]; [apply rt_refl|].
        apply chain_linkedAt.
        apply (closure_reach (length ts) (linkedAt vertex ts)
                 (linkedAt_bound vertex ts) start x Hlt).
        apply memNat_iff. now apply H. }
      eapply rt_trans; [apply chain_sym; exact (R i a Hi Fa)|].
      exact (R j b Hj Fb).
    + intros H x Hx. apply memNat_iff.
      apply (closure_reach (length ts) (linkedAt vertex ts)
               (linkedAt_bound vertex ts) start x Hlt).
      apply chain_linkedAt.
      assert (Hin : In x (incidentAt vertex ts)) by (rewrite E; now right).
      apply incidentAt_In in Hin. destruct Hin as (tx & Htx & Fx).
      exact (H start x ts0 tx Hts0 Htx Fs Fx).
Qed.

Lemma vertsManifold_iff (ts : list (Triangle FO)) :
  vertsManifold ts = true <-> forall vertex, SingleFan vertex ts.
Proof.
  unfold vertsManifold. rewrite forallb_forall. split.
  - intros H vertex. apply singleFan_iff.
    destruct (incidentAt vertex ts) as [|j rest] eqn:E.
    + unfold singleFan. now rewrite E.
    + assert (Hj : In j (incidentAt vertex ts)) by (rewrite E; now left).
      apply incidentAt_In in Hj. destruct Hj as (t & Ht & Hf).
      specialize (H t (nth_error_In _ _ Ht)).
      rewrite forallb_forall in H. apply H.
      now apply (vertexFound_corner t vertex).
  - intros H t _. apply forallb_forall. intros w _.
    apply singleFan_iff, H.
Qed.

Lemma manifoldValidity_iff (m : Mesh FO) :
  manifoldValidity m = true <->
  (forall e, meshEdge m e -> ExactlyTwoOpposite e (tris m)) /\
  (forall vertex, SingleFan vertex (tris m)).
Proof.
  unfold manifoldValidity.
  now rewrite andb_true_iff, edgesManifold_iff, vertsManifold_iff.
Qed.

(** C4, amended: manifoldValidity answers true exactly when every edge of
    the mesh is incident to exactly two triangles which traverse it in
    opposite directions and, besides, the triangles at every vertex form a
    single fan; an edge with a single incident triangle, an edge with three
    incident triangles, and an edge with two incident triangles that do not
    traverse it in opposite directions each make it answer false. *)
Theorem manifoldValidity_edges_and_fans :
  forall m : Mesh FO,
    (manifoldValidity m = true <->
     (forall e, meshEdge m e -> ExactlyTwoOpposite e (tris m)) /\
     (forall vertex, SingleFan vertex (tris m))) /\
    (forall e, meshEdge m e ->
       ((forall k k' t t',
           nth_error (tris m) k = Some t ->
           nth_error (tris m) k' = Some t' ->
           Incident e t -> Incident e t' -> k = k') ->
        manifoldValidity m = false) /\
       ((exists i j k ti tj tk,
           (i < j < k)%nat /\
           nth_error (tris m) i = Some ti /\
           nth_error (tris m) j = Some tj /\
           nth_error (tris m) k = Some tk /\
           Incident e ti /\ Incident e tj /\ Incident e tk) ->
        manifoldValidity m = false) /\
       ((exists i j ti tj a b,
           (i < j)%nat /\
           nth_error (tris m) i = Some ti /\
           nth_error (tris m) j = Some tj /\
           traversal e ti = Some a /\ traversal e tj = Some b /\
           ~ OppositeDir a b) ->
        manifoldValidity m = false)).
Proof.
  intros m. split; [apply manifoldValidity_iff|].
  intros e He.
  destruct (manifoldValidity m) eqn:V; [|now repeat split].
  pose proof (proj1 (proj1 (manifoldValidity_iff m) V) e He)
    as (i & j & t1 & t2 & a & b & Hij & Hi & Hj & Honly & Ta & Tb & Hopp).
  split; [|split].
  - intros Hone. exfalso.
    assert (i = j); [|lia].
    apply (Hone i j t1 t2 Hi Hj).
    + apply (Honly i t1 Hi). now left.
    + apply (Honly j t2 Hj). now right.
  - intros (i' & j' & k' & ti & tj & tk & Hlt & Hi' & Hj' & Hk' & Ii & Ij & Ik).
    exfalso.
    apply (Honly i' ti Hi') in Ii. apply (Honly j' tj Hj') in Ij.
    apply (Honly k' tk Hk') in Ik. lia.
  - intros (i' & j' & ti & tj & a' & b' & Hlt & Hi' & Hj' & Ta' & Tb' & Hn).
    exfalso.
    assert (Ii : i' = i \/ i' = j).
    { apply (Honly i' ti Hi'). apply incident_iff.
      eapply traversal_incident; eassumption. }
    assert (Ij : j' = i \/ j' = j).
    { apply (Honly j' tj Hj'). apply incident_iff.
      eapply traversal_incident; eassumption. }
    assert (i' = i) by lia. assert (j' = j) by lia. subst i' j'.
    rewrite Hi in Hi'. injection Hi' as <-.
    rewrite Hj in Hj'. injection Hj' as <-.
    rewrite Ta in Ta'. injection Ta' as <-.
    rewrite Tb in Tb'. injection Tb' as <-.
    exact (Hn Hopp).
Qed.

End ManifoldFacts.

Lemma manifoldValidity_edges_and_fans_witness :
  manifoldValidity tetMesh = true /\
  (forall e, meshEdge tetMesh e -> ExactlyTwoOpposite e (tris tetMesh)) /\
  (forall vertex, SingleFan vertex (tris tetMesh)) /\
  meshEdge openTetMesh (mkEdge 2 3) /\
  manifoldValidity openTetMesh = false.
Proof.
  destruct (manifoldValidity_edges_and_fans tetMesh) as [Hiff _].
  destruct (manifoldValidity_edges_and_fans openTetMesh) as [_ Hbad].
  assert (He : meshEdge openTetMesh (mkEdge 2 3)).
  { exists (mkTriangle 1 2 3 (vectorZ 0 0 0)). simpl. tauto. }
  split; [reflexivity|].
  split; [apply Hiff; reflexivity|].
  split; [apply Hiff; reflexivity|].
  split; [exact He|].
  apply (proj1 (Hbad (mkEdge 2 3) He)).
  intros k k' t t' Hk Hk' It It'.
  apply incident_iff in It, It'.
  destruct k as [|[|[|k]]]; simpl in Hk; try (now destruct k);
    injection Hk as <-; try discriminate It;
    destruct k' as [|[|[|k']]]; simpl in Hk'; try (now destruct k');
    injection Hk' as <-; try discriminate It'; reflexivity.
Defined.

(** C4, as it was stated, fails: in two tetrahedra that touch in a single
    vertex every edge is incident to exactly two triangles which traverse
    it in opposite directions, and manifoldValidity answers false, because
    the triangles at the shared vertex form two fans. *)
Lemma manifoldValidity_touching_tets :
  (forall e, meshEdge touchTetsMesh e ->
             ExactlyTwoOpposite e (tris touchTetsMesh)) /\
  manifoldValidity touchTetsMesh = false.
Proof.
  split.
  - apply edgesManifold_iff. vm_compute. reflexivity.
  - vm_compute. reflexivity.
Qed.

(* ================================================================= *)
(** ** Mesh::laplacianSmooth *)

Section SmoothingFacts.
Context {FO : FloatOps}.

Lemma combine_seq_nth {A : Type} (l : list A) :
  forall s i p,
    nth_error l i = Some p ->
    nth_error (combine (seq s (length l)) l) i = Some ((s + i)%nat, p).
Proof.
  induction l as [|a rest IH]; intros s i p H.
  - now destruct i.
  - destruct i as [|i]; simpl in *.
    + injection H as <-. now rewrite Nat.add_0_r.
    + rewrite (IH (S s) i p H). f_equal. f_equal. lia.
Qed.

Lemma map_combine_seq {A : Type} (g : nat * A -> A) (l : list A) :
  (forall ip, g ip = snd ip) ->
  forall s, map g (combine (seq s (length l)) l) = l.
Proof.
  intros Hg. induction l as [|a rest IH]; intros s; simpl; [reflexivity|].
  now rewrite Hg, IH.
Qed.

Lemma length_smoothStep (rate : F) (ts : list (Triangle FO))
    (old : list (Point FO)) :
  length (smoothStep rate ts old) = length old.
Proof.
  unfold smoothStep.
  rewrite length_map, length_combine, length_seq. apply Nat.min_id.
Qed.

Lemma smoothStep_nth (rate : F) (ts : list (Triangle FO))
    (old : list (Point FO)) (i : nat) (p : Point FO) :
  nth_error old i = Some p ->
  nth_error (smoothStep rate ts old) i
  = Some (moveToward rate p
            (centroid (neighbourPoints old ts (Z.of_nat i)))).
Proof.
  intros H. unfold smoothStep.
  rewrite nth_error_map, (combine_seq_nth old 0 i p H). reflexivity.
Qed.

Lemma length_smooth_iter (rate : F) (ts : list (Triangle FO)) (k : nat)
    (vs : list (Point FO)) :
  length (Nat.iter k (smoothStep rate ts) vs) = length vs.
Proof.
  induction k as [|k IH]; simpl; [reflexivity|].
  now rewrite length_smoothStep.
Qed.

(** The neighbours of a vertex are the other vertices of the triangles it
    belongs to. *)
Lemma neighbours_spec (ts : list (Triangle FO)) (i j : Z) :
  In j (neighbours ts i) <->
  j <> i /\
  exists t, In t ts /\ vertexFound t i = true /\ vertexFound t j = true.
Proof.
  unfold neighbours. rewrite nodup_In, in_flat_map. split.
  - intros (t & Ht & Hj). destruct (vertexFound t i) eqn:Vi; [|contradiction].
    apply filter_In in Hj. destruct Hj as [Hc Hne].
    apply negb_true_iff, Z.eqb_neq in Hne.
    split; [exact Hne|]. exists t. repeat split; try assumption.
    now apply vertexFound_corner.
  - intros (Hne & t & Ht & Vi & Vj). exists t. split; [exact Ht|].
    rewrite Vi. apply filter_In. split; [now apply vertexFound_corner|].
    now apply negb_true_iff, Z.eqb_neq.
Qed.


End SmoothingFacts.



(* ================================================================= *)
(** ** Mesh::readSTL *)

Section STLFacts.
Context {FO : FloatOps}.
Variable BoundBox : Type.
Variable boundOf : list (Point FO) -> BoundBox.
Variable hashVert : Point FO -> BoundBox -> Z.
Variable peq : Point FO -> Point FO -> bool.
Variable fofBits : Z -> F.

Local Abbreviation readSTL := (readSTL BoundBox boundOf hashVert peq fofBits).

Lemma readSTL_success_iff (file : option (list byte)) (m : Mesh FO) :
  fst (readSTL file m) = true <-> exists bs, file = Some bs /\ wellFramed bs.
Proof.
  unfold readSTL, wellFramed. destruct file as [bs|].
  - destruct (length bs <? 84)%nat eqn:E1.
    + apply Nat.ltb_lt in E1. cbn [fst]. split; [discriminate|].
      intros (bs' & Heq & Hlen & _). injection Heq as <-. lia.
    + apply Nat.ltb_ge in E1. cbv zeta.
      destruct (Z.of_nat (length bs) - 84 =? 50 * le32 (skipn 80 bs)) eqn:E2.
      * apply Z.eqb_eq in E2.
        match goal with
        | |- context [readFacets ?f ?k ?z ?r] =>
            destruct (readFacets f k z r) as [ps ts]
        end.
        cbn [fst]. split; [|reflexivity]. intros _. exists bs.
        split; [reflexivity|]. split; assumption.
      * apply Z.eqb_neq in E2. cbn [fst]. split; [discriminate|].
        intros (bs' & Heq & _ & Hfr). injection Heq as <-. contradiction.
  - cbn [fst]. split; [discriminate|]. intros (bs & H & _). discriminate H.
Qed.

(** C7: when readSTL answers false the mesh it leaves is the mesh it was
    given; and it answers false exactly when the file cannot be opened, is
    shorter than the header and the count, or holds a count that disagrees
    with the length of what follows. *)
Theorem readSTL_failure_keeps_mesh :
  forall (file : option (list byte)) (m : Mesh FO),
    (fst (readSTL file m) = false -> snd (readSTL file m) = m) /\
    (fst (readSTL file m) = false <->
     file = None \/
     exists bs, file = Some bs /\
       ((length bs < 84)%nat \/
        Z.of_nat (length bs) - 84 <> 50 * le32 (skipn 80 bs))).
Proof.
  intros file m. split.
  - unfold readSTL. destruct file as [bs|]; [|reflexivity].
    destruct (length bs <? 84)%nat; [reflexivity|].
    destruct (Z.of_nat (length bs) - 84 =? 50 * le32 (skipn 80 bs));
      [|reflexivity].
    match goal with
    | |- context [readFacets ?f ?k ?z ?r] =>
        destruct (readFacets f k z r) as [ps ts]
    end.
    discriminate.
  - pose proof (readSTL_success_iff file m) as S. unfold wellFramed in S.
    destruct (fst (readSTL file m)).
    + split; [discriminate|].
      destruct (proj1 S eq_refl) as (bs & -> & Hlen & Hfr).
      intros [H | (bs' & Heq & [H | H])];
        [discriminate H | injection Heq as <-; lia
        | injection Heq as <-; contradiction].
    + split; [|reflexivity]. intros _.
      destruct file as [bs|]; [|now left]. right. exists bs.
      split; [reflexivity|].
      destruct (Nat.lt_ge_cases (length bs) 84) as [Hlt | Hge]; [now left|].
      right. intros Hfr.
      assert (false = true); [|discriminate].
      apply S. exists bs. split; [reflexivity|]. split; assumption.
Qed.

End STLFacts.

Lemma readSTL_failure_keeps_mesh_witness :
  fst (readSTLZ (Some headerOnlyFile) soupMesh) = false /\
  snd (readSTLZ (Some headerOnlyFile) soupMesh) = soupMesh /\
  snd (readSTLZ (Some shortFile) soupMesh) = soupMesh /\
  snd (readSTLZ None soupMesh) = soupMesh.
Proof.
  split; [reflexivity|].
  split; [|split];
    apply (readSTL_failure_keeps_mesh (Point ZOps * Point ZOps) boundOfZ
             hashVertZ peqZ (fun bits => bits));
    reflexivity.
Defined.

(* ================================================================= *)
(** * Part III: further properties of the members defined in mesh.h *)

(** ** Triangle::deriveNormal called more than once *)

Section DeriveNormalAgain.
Context {FO : FloatOps}.
Variable veq : Vector FO -> Vector FO -> bool.

Lemma found_snoc (l : list (Vector FO)) (x y : Vector FO) :
  found veq (l ++ [x]) y = found veq l y || veq x y.
Proof.
  induction l as [|a rest IH]; simpl.
  - now destruct (veq x y).
  - now destruct (veq a y).
Qed.

Lemma snoc_neq {A : Type} (l : list A) (x : A) : l ++ [x] <> l.
Proof.
  intros H. apply (f_equal (@length A)) in H.
  rewrite length_app in H. simpl in H. lia.
Qed.

Lemma deriveNormal_with (normals : list (Vector FO)) (vts : list (Point FO))
    (t : Triangle FO) (nrm : Vector FO) :
  faceNormal vts t = Some nrm ->
  deriveNormal veq normals vts t
  = Some (if found veq normals nrm then normals else normals ++ [nrm]).
Proof. unfold deriveNormal. now intros ->. Qed.

(** X1: a second call of deriveNormal for the same triangle leaves the
    normals list of the first call as it is exactly when the normal was
    already found by the first call or compares equal to itself; and what
    the search finds before a call it still finds after it. *)
Theorem deriveNormal_twice :
  forall (normals : list (Vector FO)) (vts : list (Point FO)) (t : Triangle FO),
    triInBounds vts t ->
    exists nrm once twice,
      faceNormal vts t = Some nrm /\
      deriveNormal veq normals vts t = Some once /\
      deriveNormal veq once vts t = Some twice /\
      (twice = once <-> found veq normals nrm = true \/ veq nrm nrm = true) /\
      (forall x, found veq normals x = true -> found veq once x = true).
Proof.
  intros normals vts t B.
  destruct (deriveNormal_candidate_aux veq normals vts t B) as (nrm & HF & _).
  exists nrm.
  exists (if found veq normals nrm then normals else normals ++ [nrm]).
  exists (if found veq (if found veq normals nrm
                        then normals else normals ++ [nrm]) nrm
          then (if found veq normals nrm then normals else normals ++ [nrm])
          else (if found veq normals nrm
                then normals else normals ++ [nrm]) ++ [nrm]).
  split; [exact HF|].
  split; [now apply deriveNormal_with|].
  split; [now apply deriveNormal_with|].
  destruct (found veq normals nrm) eqn:E1.
  - rewrite E1. split; [|auto]. split; auto.
  - rewrite found_snoc, E1. simpl. split.
    + destruct (veq nrm nrm) eqn:E2.
      * split; auto.
      * split.
        -- intros H. exfalso. exact (snoc_neq _ _ H).
        -- intros [H | H]; discriminate H.
    + intros x Hx. rewrite found_snoc, Hx. reflexivity.
Qed.

(** X2: when the comparison of vectors is symmetric, deriving the normals
    of two triangles in either order leaves normals lists of the same
    length. *)
Theorem deriveNormal_order_length :
  (forall a b, veq a b = veq b a) ->
  forall (normals : list (Vector FO)) (vts : list (Point FO))
         (t1 t2 : Triangle FO),
    triInBounds vts t1 -> triInBounds vts t2 ->
    exists after1 after2 l12 l21,
      deriveNormal veq normals vts t1 = Some after1 /\
      deriveNormal veq after1 vts t2 = Some l12 /\
      deriveNormal veq normals vts t2 = Some after2 /\
      deriveNormal veq after2 vts t1 = Some l21 /\
      length l12 = length l21.
Proof.
  intros Hsym normals vts t1 t2 B1 B2.
  destruct (deriveNormal_candidate_aux veq normals vts t1 B1) as (n1 & F1 & _).
  destruct (deriveNormal_candidate_aux veq normals vts t2 B2) as (n2 & F2 & _).
  eexists. eexists. eexists. eexists.
  split; [apply (deriveNormal_with _ _ _ _ F1)|].
  split; [apply (deriveNormal_with _ _ _ _ F2)|].
  split; [apply (deriveNormal_with _ _ _ _ F2)|].
  split; [apply (deriveNormal_with _ _ _ _ F1)|].
  destruct (found veq normals n1) eqn:E1; destruct (found veq normals n2) eqn:E2;
    rewrite ?found_snoc, ?E1, ?E2; simpl;
    rewrite ?(Hsym n2 n1); destruct (veq n1 n2); simpl;
    rewrite ?length_app; reflexivity.
Qed.

End DeriveNormalAgain.

Lemma veqZ_sym (a b : Vector ZOps) : veqZ a b = veqZ b a.
Proof.
  unfold veqZ.
  now rewrite (Z.eqb_sym (vi a)), (Z.eqb_sym (vj a)), (Z.eqb_sym (vk a)).
Qed.

Lemma deriveNormal_twice_witness :
  triInBounds cornerVerts cornerTri /\
  exists once,
    deriveNormal veqZ [] cornerVerts cornerTri = Some once /\
    deriveNormal veqZ once cornerVerts cornerTri = Some once.
Proof.
  assert (B : triInBounds cornerVerts cornerTri)
    by (unfold triInBounds, in_bounds; simpl; lia).
  split; [exact B|].
  destruct (deriveNormal_twice veqZ [] cornerVerts cornerTri B)
    as (nrm & once & twice & HF & H1 & H2 & Hiff & _).
  exists once. split; [exact H1|].
  assert (E : twice = once).
  { apply Hiff. right. vm_compute in HF. injection HF as <-. reflexivity. }
  now rewrite <- E at 2.
Defined.

Lemma deriveNormal_order_length_witness :
  triInBounds cornerVerts cornerTri /\
  triInBounds cornerVerts (reverse cornerTri) /\
  exists after1 after2 l12 l21,
    deriveNormal veqZ [] cornerVerts cornerTri = Some after1 /\
    deriveNormal veqZ after1 cornerVerts (reverse cornerTri) = Some l12 /\
    deriveNormal veqZ [] cornerVerts (reverse cornerTri) = Some after2 /\
    deriveNormal veqZ after2 cornerVerts cornerTri = Some l21 /\
    length l12 = length l21.
Proof.
  assert (B1 : triInBounds cornerVerts cornerTri)
    by (unfold triInBounds, in_bounds; simpl; lia).
  assert (B2 : triInBounds cornerVerts (reverse cornerTri))
    by (unfold triInBounds, in_bounds; simpl; lia).
  split; [exact B1|]. split; [exact B2|].
  exact (deriveNormal_order_length veqZ veqZ_sym [] cornerVerts
           cornerTri (reverse cornerTri) B1 B2).
Defined.

(* ================================================================= *)
(** ** The geometry of the derived normal *)

Section NormalGeometry.
Context {FO : FloatOps} {EA : ExactArith FO}.

Add Ring ExactScalarsAgain : (@exact_ring FO EA).

Lemma cross_same_corner (p1 p2 p3 : Point FO) :
  p1 = p2 \/ p2 = p3 \/ p1 = p3 ->
  mult (cross (diff p3 p2) (diff p1 p2)) (fofZ (-1)) = Vector0.
Proof.
  intros [-> | [-> | ->]]; unfold mult, cross, diff, Vector0; simpl;
    f_equal; ring.
Qed.

(** X5: in exact arithmetic, for a triangle that names the same vertex
    twice the cross product vanishes, so that deriveNormal computes the
    normalization of the zero vector, whichever the triangle. *)
Theorem faceNormal_repeated_vertex :
  forall (vts : list (Point FO)) (t : Triangle FO),
    triInBounds vts t ->
    v0 t = v1 t \/ v1 t = v2 t \/ v0 t = v2 t ->
    faceNormal vts t = Some (normalize Vector0).
Proof.
  intros vts t (H0 & H1 & H2) Hrep.
  destruct (at_index_in_bounds _ _ H0) as [p1 E1].
  destruct (at_index_in_bounds _ _ H1) as [p2 E2].
  destruct (at_index_in_bounds _ _ H2) as [p3 E3].
  unfold faceNormal. rewrite E1, E2, E3. f_equal. f_equal.
  apply cross_same_corner.
  destruct Hrep as [H | [H | H]]; rewrite H in *;
    [left | right; left | right; right]; congruence.
Qed.

End NormalGeometry.

Lemma faceNormal_repeated_vertex_witness :
  triInBounds cornerVerts sliverTri /\
  (v0 sliverTri = v1 sliverTri \/ v1 sliverTri = v2 sliverTri
   \/ v0 sliverTri = v2 sliverTri) /\
  faceNormal cornerVerts sliverTri = Some (vectorZ 0 0 0).
Proof.
  assert (B : triInBounds cornerVerts sliverTri)
    by (unfold triInBounds, in_bounds; simpl; lia).
  assert (R : v0 sliverTri = v1 sliverTri \/ v1 sliverTri = v2 sliverTri
              \/ v0 sliverTri = v2 sliverTri) by (right; left; reflexivity).
  split; [exact B|]. split; [exact R|].
  exact (faceNormal_repeated_vertex (EA := ZExact) cornerVerts sliverTri B R).
Defined.

(* ================================================================= *)
(** ** Triangle::vertexFound *)

Section VertexFoundFacts.
Context {FO : FloatOps}.

Lemma vertexFound_iff (t : Triangle FO) (k : Z) :
  vertexFound t k = true <-> k = v0 t \/ k = v1 t \/ k = v2 t.
Proof.
  unfold vertexFound.
  destruct (k =? v0 t) eqn:E0; destruct (k =? v1 t) eqn:E1;
    destruct (k =? v2 t) eqn:E2; simpl;
    rewrite ?Z.eqb_eq, ?Z.eqb_neq in *;
    (split; [intros H; try discriminate H; auto
            | intros [H|[H|H]]; try reflexivity; contradiction]).
Qed.

(** X6: vertexFound answers true exactly for the three indices of the
    triangle, whatever vertex the winding starts from and whichever way it
    turns; an index found in a triangle whose indices are inside the vertex
    list is inside the vertex list. *)
Theorem vertexFound_winding :
  forall (t : Triangle FO) (k : Z),
    (vertexFound t k = true <-> k = v0 t \/ k = v1 t \/ k = v2 t) /\
    vertexFound (rotate t) k = vertexFound t k /\
    vertexFound (reverse t) k = vertexFound t k /\
    (forall vts : list (Point FO),
       triInBounds vts t -> vertexFound t k = true -> in_bounds vts k).
Proof.
  intros t k. split; [apply vertexFound_iff|]. split; [|split].
  - unfold vertexFound, rotate; simpl.
    destruct (k =? v0 t), (k =? v1 t), (k =? v2 t); reflexivity.
  - unfold vertexFound, reverse; simpl.
    destruct (k =? v0 t), (k =? v1 t), (k =? v2 t); reflexivity.
  - intros vts (H0 & H1 & H2) Hf. apply vertexFound_iff in Hf.
    destruct Hf as [-> | [-> | ->]]; assumption.
Qed.

End VertexFoundFacts.

Lemma vertexFound_winding_witness :
  triInBounds cornerVerts cornerTri /\
  vertexFound cornerTri 2 = true /\
  in_bounds cornerVerts 2.
Proof.
  assert (B : triInBounds cornerVerts cornerTri)
    by (unfold triInBounds, in_bounds; simpl; lia).
  split; [exact B|]. split; [reflexivity|].
  exact (proj2 (proj2 (proj2 (vertexFound_winding cornerTri 2)))
           cornerVerts B eq_refl).
Defined.

(* ================================================================= *)
(** ** Mesh::setCubeTriangles, once more *)

Section CubeFacts.
Context {FO : FloatOps}.
Variable veq : Vector FO -> Vector FO -> bool.

Lemma toInt_small (z : Z) : - 2 ^ 31 <= z < 2 ^ 31 -> toInt z = z.
Proof.
  intros H. unfold toInt. rewrite Z.mod_small by lia. lia.
Qed.

Lemma faceNormal_None_iff (vts : list (Point FO)) (t : Triangle FO) :
  faceNormal vts t = None <-> ~ triInBounds vts t.
Proof.
  unfold faceNormal, triInBounds. split.
  - intros H (H0 & H1 & H2).
    destruct (at_index_in_bounds _ _ H0) as [p1 E1].
    destruct (at_index_in_bounds _ _ H1) as [p2 E2].
    destruct (at_index_in_bounds _ _ H2) as [p3 E3].
    rewrite E1, E2, E3 in H. discriminate H.
  - intros H.
    destruct (at_index vts (v0 t)) as [p1|] eqn:E1; [|reflexivity].
    destruct (at_index vts (v1 t)) as [p2|] eqn:E2; [|reflexivity].
    destruct (at_index vts (v2 t)) as [p3|] eqn:E3; [|reflexivity].
    exfalso. apply H.
    repeat split; eapply at_index_Some_in_bounds; eassumption.
Qed.

(** X7: setCubeTriangles replaces the triangle list, it does not append to
    it: the result is the same whatever triangles the mesh held, a second
    call changes nothing, and the vertices, hence empty and getNumVerts,
    are left as they were while getNumFaces becomes 12. *)
Theorem setCubeTriangles_replaces :
  forall (m : Mesh FO) (ts : list (Triangle FO)),
    setCubeTriangles (withTris m ts) = setCubeTriangles m /\
    setCubeTriangles (setCubeTriangles m) = setCubeTriangles m /\
    verts (setCubeTriangles m) = verts m /\
    empty (setCubeTriangles m) = empty m /\
    getNumVerts (setCubeTriangles m) = getNumVerts m /\
    getNumFaces (setCubeTriangles m) = 12 /\
    getCubeTriangles (setCubeTriangles (withTris m ts))
    = getCubeTriangles (setCubeTriangles m).
Proof.
  intros m ts. repeat split.
Qed.

(** X8: the triangles of setCubeTriangles reference exactly the indices 1
    to 8; all of them are inside the vertex list exactly when the mesh has
    at least 9 vertices, and on a mesh of 8 vertices deriveNormal reads
    outside of the vertex list for exactly the triangles that name
    index 8. *)
Theorem setCubeTriangles_needs_nine :
  forall (m : Mesh FO) (normals : list (Vector FO)),
    let ts := tris (setCubeTriangles m) in
    (forall k, (exists t, In t ts /\ vertexFound t k = true) <-> 1 <= k <= 8) /\
    ((forall t, In t ts -> triInBounds (verts (setCubeTriangles m)) t) <->
     (9 <= length (verts m))%nat) /\
    (length (verts m) = 8%nat ->
     forall t, In t ts ->
       (deriveNormal veq normals (verts (setCubeTriangles m)) t = None <->
        vertexFound t 8 = true)).
Proof.
  intros m normals ts. subst ts. split; [|split].
  - intros k. split.
    + intros (t & Hin & Hf). apply vertexFound_iff in Hf. simpl in Hin.
      repeat (destruct Hin as [<- | Hin]; [simpl in Hf; lia|]).
      contradiction.
    + intros Hk.
      assert (C : k = 1 \/ k = 2 \/ k = 3 \/ k = 4 \/ k = 5 \/ k = 6
                  \/ k = 7 \/ k = 8) by lia.
      destruct C as [-> | [-> | [-> | [-> | [-> | [-> | [-> | ->]]]]]]].
      * exists (cubeTri 1 2 3). split; [simpl; tauto | reflexivity].
      * exists (cubeTri 1 2 3). split; [simpl; tauto | reflexivity].
      * exists (cubeTri 1 2 3). split; [simpl; tauto | reflexivity].
      * exists (cubeTri 3 4 1). split; [simpl; tauto | reflexivity].
      * exists (cubeTri 4 3 5). split; [simpl; tauto | reflexivity].
      * exists (cubeTri 5 6 4). split; [simpl; tauto | reflexivity].
      * exists (cubeTri 6 5 7). split; [simpl; tauto | reflexivity].
      * exists (cubeTri 7 8 6). split; [simpl; tauto | reflexivity].
  - change (verts (setCubeTriangles m)) with (verts m). split.
    + intros H.
      assert (B : triInBounds (verts m) (cubeTri 7 8 6))
        by (apply H; simpl; tauto).
      destruct B as (_ & B & _). unfold in_bounds in B. simpl in B. lia.
    + intros Hlen t Hin. simpl in Hin.
      repeat (destruct Hin as [<- | Hin];
              [unfold triInBounds, in_bounds; simpl; lia|]).
      contradiction.
  - change (verts (setCubeTriangles m)) with (verts m).
    intros Hlen t Hin.
    assert (E : deriveNormal veq normals (verts m) t = None
                <-> ~ triInBounds (verts m) t).
    { rewrite <- faceNormal_None_iff. unfold deriveNormal.
      destruct (faceNormal (verts m) t); split; intros H;
        try reflexivity; discriminate H. }
    rewrite E. clear E. simpl in Hin.
    repeat (destruct Hin as [<- | Hin];
            [unfold triInBounds, in_bounds; rewrite Hlen; simpl;
             split; intros H; try reflexivity; try discriminate H; lia|]).
    contradiction.
Qed.

(** X9: the twelve triangles of setCubeTriangles close up into a
    consistently wound surface: their 36 directed edges are all different,
    none joins a vertex to itself, and the reverse of each is the directed
    edge of another triangle. *)
Theorem setCubeTriangles_closed :
  forall m : Mesh FO,
    let edges := flat_map windingEdges (tris (setCubeTriangles m)) in
    length edges = 36%nat /\
    NoDup edges /\
    (forall a b, In (a, b) edges -> a <> b /\ In (b, a) edges).
Proof.
  intros m edges. subst edges. simpl. split; [reflexivity|]. split.
  - repeat (constructor;
            [simpl; intros H;
             repeat (destruct H as [H | H]; [discriminate H|]); exact H|]).
    constructor.
  - intros a b H.
    repeat (destruct H as [H | H];
            [injection H as <- <-; split; [discriminate | tauto]|]).
    contradiction.
Qed.

End CubeFacts.

Lemma setCubeTriangles_needs_nine_witness :
  (9 <= length (verts paddedCubeMesh))%nat /\
  (forall t, In t (tris (setCubeTriangles paddedCubeMesh)) ->
             triInBounds (verts (setCubeTriangles paddedCubeMesh)) t) /\
  length (verts cubeMesh) = 8%nat /\
  deriveNormal veqZ [] (verts (setCubeTriangles cubeMesh))
    (mkTriangle 7 8 6 (vectorZ 0 0 0)) = None.
Proof.
  assert (L : (9 <= length (verts paddedCubeMesh))%nat) by (simpl; lia).
  split; [exact L|].
  split.
  - exact (proj2 (proj1 (proj2 (setCubeTriangles_needs_nine veqZ
                                  paddedCubeMesh []))) L).
  - split; [reflexivity|].
    apply (proj2 (proj2 (setCubeTriangles_needs_nine veqZ cubeMesh []))
             eq_refl (mkTriangle 7 8 6 (vectorZ 0 0 0))).
    + simpl. tauto.
    + reflexivity.
Defined.

Lemma setCubeTriangles_closed_witness :
  In (7, 8) (flat_map windingEdges (tris (setCubeTriangles cubeMesh))) /\
  In (8, 7) (flat_map windingEdges (tris (setCubeTriangles cubeMesh))).
Proof.
  assert (H : In (7, 8)
                 (flat_map windingEdges (tris (setCubeTriangles cubeMesh))))
    by (simpl; tauto).
  split; [exact H|].
  exact (proj2 (proj2 (proj2 (setCubeTriangles_closed cubeMesh)) 7 8 H)).
Defined.

(* ================================================================= *)
(** ** Counting vertices and faces *)

Section AccessorFacts.
Context {FO : FloatOps}.

Lemma toInt_range (z : Z) : - 2 ^ 31 <= toInt z < 2 ^ 31.
Proof.
  unfold toInt.
  pose proof (Z.mod_pos_bound (z + 2 ^ 31) (2 ^ 32) ltac:(lia)). lia.
Qed.

(** X10: getNumVerts always lies in the range of an int and is 0 for a mesh
    that empty reports empty; when the number of vertices is below 2^31 it
    is that number, and it is 0 only for a mesh that empty reports empty.
    getNumFaces is the number of triangles when that is below 2^31. *)
Theorem getNumVerts_empty :
  forall m : Mesh FO,
    - 2 ^ 31 <= getNumVerts m < 2 ^ 31 /\
    (empty m = true -> getNumVerts m = 0) /\
    (Z.of_nat (length (verts m)) < 2 ^ 31 ->
     getNumVerts m = Z.of_nat (length (verts m)) /\
     (getNumVerts m = 0 -> empty m = true)) /\
    (Z.of_nat (length (tris m)) < 2 ^ 31 ->
     getNumFaces m = Z.of_nat (length (tris m))).
Proof.
  intros m. unfold getNumVerts, getNumFaces, empty.
  split; [apply toInt_range|]. split; [|split].
  - destruct (verts m); [reflexivity | discriminate].
  - intros Hlt. rewrite toInt_small by lia. split; [reflexivity|].
    destruct (verts m); [reflexivity | simpl length; lia].
  - intros Hlt. apply toInt_small. lia.
Qed.

End AccessorFacts.

Lemma getNumVerts_empty_witness :
  Z.of_nat (length (verts cubeMesh)) < 2 ^ 31 /\
  getNumVerts cubeMesh = 8 /\
  empty (meshZ [] []) = true /\
  getNumVerts (meshZ [] []) = 0.
Proof.
  assert (L : Z.of_nat (length (verts cubeMesh)) < 2 ^ 31) by (simpl; lia).
  split; [exact L|].
  destruct (getNumVerts_empty cubeMesh) as (_ & _ & H & _).
  split; [exact (proj1 (H L))|].
  split; [reflexivity|].
  exact (proj1 (proj2 (getNumVerts_empty (meshZ [] []))) eq_refl).
Defined.
